(** * Group cache (pkg/common/db/cache/group.go): a shallow embedding

    The Go methods of [GroupCacheRedis] are embedded as functions in a small
    state-and-failure monad over a [World] made of the Redis key space and
    the in-process heap of invalidation accumulators ([metaCache] objects).
    Strings are [string], Go integers are [Z] with their wrap-around written
    out, Go maps are [gmap], slices are lists. *)

From Stdlib Require Import ZArith Lia Ascii.
From stdpp Require Import base option list strings gmap fin_maps.

(** ** Go values *)

(** The errors the cache layer distinguishes.  [errIndex] is the package
    variable returned by the index helpers; [ErrRecordNotFound] is the
    store's "no such record"; every other failure carries its message. *)
Inductive error :=
  | errIndex
  | ErrRecordNotFound
  | ErrOther (msg : string).

(** A Go return pair [(T, error)]. *)
Inductive result (A : Type) :=
  | Okay (a : A)
  | Error (e : error).
Arguments Okay {A} a.
Arguments Error {A} e.

(** What a call does: return a value, return an error, or panic (a call
    through a nil function value or a nil interface). *)
Inductive outcome (A : Type) :=
  | Ok (a : A)
  | Err (e : error)
  | Panic.
Arguments Ok {A} a.
Arguments Err {A} e.
Arguments Panic {A}.

Definition of_result {A} (r : result A) : outcome A :=
  match r with
  | Okay a => Ok a
  | Error e => Err e
  end.

Definition uint32 (z : Z) : Z := (z mod 2 ^ 32)%Z.

(** ** Table records (package relation): the fields this file reads

    [GroupMemberModel.GroupID] is [MemberGroupID] here and [groupDB.Take] is
    [GroupTake]: a field name belongs to one record. *)

Record GroupModel := { GroupID : string }.

Record GroupMemberModel := { MemberGroupID : string; UserID : string }.

Record GroupSimpleUserID := { Hash : Z; MemberNum : Z }.

(** The store interfaces, as records of the methods the cache calls.  A
    store call is a function of its arguments: the store does not change
    while one cache call runs. *)
Record GroupModelInterface := {
  GroupTake : string -> result GroupModel
}.

Record GroupMemberModelInterface := {
  FindMemberUserID : string -> result (list string);
  Take : string -> string -> result GroupMemberModel;
  FindUserJoinedGroupID : string -> result (list string);
  TakeGroupMemberNum : string -> result Z
}.

Inductive GroupRequestModelInterface := GroupRequestDB (name : string).

(** ** The cache backend *)

Inductive UniversalClient := RedisHandle (id : nat).
Inductive Options := OptionsHandle (id : nat).

Record Client := { client_rdb : UniversalClient; client_options : Options }.

Definition NewClient (rdb : UniversalClient) (opts : Options) : Client :=
  {| client_rdb := rdb; client_options := opts |}.

(** Encoded cache values, by the Go type that was encoded. *)
Inductive CacheValue :=
  | VGroup (g : GroupModel)
  | VMember (m : GroupMemberModel)
  | VStrings (l : list string)
  | VInt (n : Z).

Class Codec (T : Type) := {
  encode : T -> CacheValue;
  decode : CacheValue -> option T
}.

#[export] Instance GroupModel_codec : Codec GroupModel := {|
  encode := VGroup;
  decode := fun v => match v with VGroup g => Some g | _ => None end
|}.

#[export] Instance GroupMemberModel_codec : Codec GroupMemberModel := {|
  encode := VMember;
  decode := fun v => match v with VMember m => Some m | _ => None end
|}.

#[export] Instance strings_codec : Codec (list string) := {|
  encode := VStrings;
  decode := fun v => match v with VStrings l => Some l | _ => None end
|}.

#[export] Instance int_codec : Codec Z := {|
  encode := VInt;
  decode := fun v => match v with VInt n => Some n | _ => None end
|}.

(** One key of the backend: the encoded value and the time-to-live (in
    nanoseconds, as [time.Duration]) it was stored with. *)
Record Entry := { value : CacheValue; ttl : Z }.

(** The state of one accumulator object. *)
Record metaCacheRedis := { mc_rcClient : Client; keys : list string }.

(** A [metaCache] interface value is the address of its object on the heap
    of accumulators. *)
Definition loc := nat.

Record World := {
  redis : gmap string Entry;
  heap : list metaCacheRedis
}.

Definition set_redis (r : gmap string Entry) (w : World) : World :=
  {| redis := r; heap := heap w |}.

Definition set_heap (h : list metaCacheRedis) (w : World) : World :=
  {| redis := redis w; heap := h |}.

(** ** The monad of cache calls *)

Definition M (A : Type) : Type := World -> outcome A * World.

Definition ret {A} (a : A) : M A := fun w => (Ok a, w).

Definition bind {A B} (c : M A) (k : A -> M B) : M B :=
  fun w =>
    match c w with
    | (Ok a, w1) => k a w1
    | (Err e, w1) => (Err e, w1)
    | (Panic, w1) => (Panic, w1)
    end.

(** [attempt c] runs [c] and hands its Go pair [(T, error)] to the caller,
    for code that inspects [err] itself. *)
Definition attempt {A} (c : M A) : M (result A) :=
  fun w =>
    match c w with
    | (Ok a, w1) => (Ok (Okay a), w1)
    | (Err e, w1) => (Ok (Error e), w1)
    | (Panic, w1) => (Panic, w1)
    end.

Definition fail {A} (e : error) : M A := fun w => (Err e, w).

Notation "'let*' x ':=' c 'in' k" := (bind c (fun x => k))
  (at level 10, x name, c at level 100, k at level 200).

(** ** meta_cache.go *)

(** Modelled from the spec: the invalidation accumulator [metaCache]
    (meta_cache.go is not among the sources).  It carries a reference to the
    cache backend and the pending delete keys; [NewMetaCacheRedis] makes a
    new accumulator object holding the given keys.  The key slice is held as
    a value: the new object shares no storage with the slice it was made
    from. *)
Definition NewMetaCacheRedis (rcClient : Client) (ks : list string) : M loc :=
  fun w =>
    (Ok (length (heap w)),
     set_heap (heap w ++ [{| mc_rcClient := rcClient; keys := ks |}]) w).

(** Modelled from the spec: [AddKeys] appends to the pending set; an
    in-process mutation of the accumulator, no backend call. *)
Definition AddKeys (m : loc) (ks : list string) : M unit :=
  fun w =>
    match heap w !! m with
    | Some mc =>
        (Ok tt,
         set_heap (<[m := {| mc_rcClient := mc_rcClient mc;
                             keys := keys mc ++ ks |}]> (heap w)) w)
    | None => (Panic, w)
    end.

(** Modelled from the spec: [GetPreDelKeys] is the read accessor of the
    pending set. *)
Definition GetPreDelKeys (m : loc) : M (list string) :=
  fun w =>
    match heap w !! m with
    | Some mc => (Ok (keys mc), w)
    | None => (Panic, w)
    end.

(** Modelled from the spec: [ExecDel] (commit) issues one batch delete of
    all pending keys against the backend and clears the set on success.
    The backend is taken to be reachable. *)
Definition ExecDel (m : loc) : M unit :=
  fun w =>
    match heap w !! m with
    | Some mc =>
        (Ok tt,
         {| redis := foldr delete (redis w) (keys mc);
            heap := <[m := {| mc_rcClient := mc_rcClient mc; keys := [] |}]>
                      (heap w) |})
    | None => (Panic, w)
    end.

(** The pending keys of the accumulator at [m], read off the heap. *)
Definition pending (m : loc) (w : World) : option (list string) :=
  keys <$> heap w !! m.

(** Modelled from the spec: [getCache], the single-key get-or-load (KeyLoader).
    A present key is decoded and returned without calling the loader; on a
    miss the loader runs and its value is stored under the key with the TTL;
    a failed load writes nothing and its error surfaces. *)
Definition getCache {T} `{Codec T} (rcClient : Client) (key : string)
    (expire : Z) (fn : unit -> outcome T) : M T :=
  fun w =>
    match redis w !! key with
    | Some e =>
        match decode (value e) with
        | Some v => (Ok v, w)
        | None => (Err (ErrOther "decode"), w)
        end
    | None =>
        match fn tt with
        | Ok v =>
            (Ok v, set_redis (<[key := {| value := encode v; ttl := expire |}]>
                                (redis w)) w)
        | Err e => (Err e, w)
        | Panic => (Panic, w)
        end
    end.

(** Modelled from the spec: [batchGetCache2], the batch get-or-load
    (BatchLoader): [getCache] for every identifier, successes collected in
    input order; an identifier the store does not have is left out, any
    other failed load fails the whole batch. *)
Fixpoint batchGetCache2 {T} `{Codec T} (rcClient : Client) (expire : Z)
    (ids : list string) (keyFn : string -> string)
    (fns : string -> outcome T) : M (list T) :=
  match ids with
  | [] => ret []
  | id :: rest =>
      let* r := attempt (getCache rcClient (keyFn id) expire (fun _ => fns id)) in
      match r with
      | Okay v =>
          let* vs := batchGetCache2 rcClient expire rest keyFn fns in
          ret (v :: vs)
      | Error ErrRecordNotFound =>
          batchGetCache2 rcClient expire rest keyFn fns
      | Error e => fail e
      end
  end.

(** ** group.go *)

Definition groupExpireTime : Z := (1000000000 * 60 * 60 * 12)%Z.
Definition groupInfoKey : string := "GROUP_INFO:".
Definition groupMemberIDsKey : string := "GROUP_MEMBER_IDS:".
Definition groupMembersHashKey : string := "GROUP_MEMBERS_HASH2:".
Definition groupMemberInfoKey : string := "GROUP_MEMBER_INFO:".
Definition joinedGroupsKey : string := "JOIN_GROUPS_KEY:".
Definition groupMemberNumKey : string := "GROUP_MEMBER_NUM_CACHE:".

(** [hashCode] is a Go function value: [None] is the nil function. *)
Record GroupCacheRedis := {
  metaCache : loc;
  groupDB : GroupModelInterface;
  groupMemberDB : GroupMemberModelInterface;
  groupRequestDB : GroupRequestModelInterface;
  expireTime : Z;
  rcClient : Client;
  hashCode : option (string -> result Z)
}.

Definition NewGroupCacheRedis (rdb : UniversalClient)
    (groupDB : GroupModelInterface) (groupMemberDB : GroupMemberModelInterface)
    (groupRequestDB : GroupRequestModelInterface)
    (hashCode : option (string -> result Z)) (opts : Options)
    : M GroupCacheRedis :=
  let rcClient := NewClient rdb opts in
  let* m := NewMetaCacheRedis rcClient [] in
  ret {| rcClient := rcClient; expireTime := groupExpireTime;
         groupDB := groupDB; groupMemberDB := groupMemberDB;
         groupRequestDB := groupRequestDB;
         hashCode := hashCode;
         metaCache := m |}.

(** The struct literal of [NewCache] names six of the seven fields; the one
    it leaves out, [hashCode], gets Go's zero value, the nil function. *)
Definition NewCache (g : GroupCacheRedis) : M GroupCacheRedis :=
  let* preDelKeys := GetPreDelKeys (metaCache g) in
  let* m := NewMetaCacheRedis (rcClient g) preDelKeys in
  ret {| rcClient := rcClient g;
         expireTime := expireTime g;
         groupDB := groupDB g;
         groupMemberDB := groupMemberDB g;
         groupRequestDB := groupRequestDB g;
         metaCache := m;
         hashCode := None |}.

(** The key methods do not read their receiver; it is left out. *)
Definition getGroupInfoKey (groupID : string) : string :=
  groupInfoKey +:+ groupID.

Definition getJoinedGroupsKey (userID : string) : string :=
  joinedGroupsKey +:+ userID.

Definition getGroupMembersHashKey (groupID : string) : string :=
  groupMembersHashKey +:+ groupID.

Definition getGroupMemberIDsKey (groupID : string) : string :=
  groupMemberIDsKey +:+ groupID.

Definition getGroupMemberInfoKey (groupID userID : string) : string :=
  groupMemberInfoKey +:+ groupID +:+ "-" +:+ userID.

Definition getGroupMemberNumKey (groupID : string) : string :=
  groupMemberNumKey +:+ groupID.

(** [for i, _key := range keys { if _key == key { return i, nil } }],
    entered at index [i]. *)
Fixpoint rangeIndex (key : string) (keys : list string) (i : Z) : option Z :=
  match keys with
  | [] => None
  | _key :: rest =>
      if String.eqb _key key then Some i else rangeIndex key rest (i + 1)%Z
  end.

Definition GetGroupIndex (group : GroupModel) (keys : list string)
    : Z * option error :=
  let key := getGroupInfoKey (GroupID group) in
  match rangeIndex key keys 0 with
  | Some i => (i, None)
  | None => (0%Z, Some errIndex)
  end.

Definition GetGroupMemberIndex (groupMember : GroupMemberModel)
    (keys : list string) : Z * option error :=
  let key := getGroupMemberInfoKey (MemberGroupID groupMember) (UserID groupMember) in
  match rangeIndex key keys 0 with
  | Some i => (i, None)
  | None => (0%Z, Some errIndex)
  end.

(** [keys := make([]string, 0, len(ids)); for _, id := range ids
    { keys = append(keys, f(id)) }]. *)
Definition appendKeys (f : string -> string) (ids : list string) : list string :=
  fold_left (fun keys id => keys ++ [f id]) ids [].

Definition GetGroupsInfo (g : GroupCacheRedis) (groupIDs : list string)
    : M (list GroupModel) :=
  batchGetCache2 (rcClient g) (expireTime g) groupIDs
    (fun groupID => getGroupInfoKey groupID)
    (fun groupID => of_result (GroupTake (groupDB g) groupID)).

Definition GetGroupInfo (g : GroupCacheRedis) (groupID : string) : M GroupModel :=
  getCache (rcClient g) (getGroupInfoKey groupID) (expireTime g)
    (fun _ => of_result (GroupTake (groupDB g) groupID)).

Definition DelGroupsInfo (g : GroupCacheRedis) (groupIDs : list string)
    : M GroupCacheRedis :=
  let* newGroupCache := NewCache g in
  let keys := appendKeys getGroupInfoKey groupIDs in
  let* _ := AddKeys (metaCache newGroupCache) keys in
  ret newGroupCache.

Definition GetGroupMembersHash (g : GroupCacheRedis) (groupID : string) : M Z :=
  getCache (rcClient g) (getGroupMembersHashKey groupID) (expireTime g)
    (fun _ => match hashCode g with
              | Some f => of_result (f groupID)
              | None => Panic
              end).

Definition GetGroupMemberNum (g : GroupCacheRedis) (groupID : string) : M Z :=
  getCache (rcClient g) (getGroupMemberNumKey groupID) (expireTime g)
    (fun _ => of_result (TakeGroupMemberNum (groupMemberDB g) groupID)).

(** The loop of [GetGroupMemberHashMap] over the remaining [groupIDs], with
    the map [res] built so far.  The log call has no effect on the state
    modelled here. *)
Fixpoint hashMapLoop (g : GroupCacheRedis) (groupIDs : list string)
    (res : gmap string GroupSimpleUserID) : M (gmap string GroupSimpleUserID) :=
  match groupIDs with
  | [] => ret res
  | groupID :: rest =>
      let* hash := GetGroupMembersHash g groupID in
      let* num := GetGroupMemberNum g groupID in
      hashMapLoop g rest
        (<[groupID := {| Hash := hash; MemberNum := uint32 num |}]> res)
  end.

Definition GetGroupMemberHashMap (g : GroupCacheRedis) (groupIDs : list string)
    : M (gmap string GroupSimpleUserID) :=
  hashMapLoop g groupIDs ∅.

Definition DelGroupMembersHash (g : GroupCacheRedis) (groupID : string)
    : M GroupCacheRedis :=
  let* cache := NewCache g in
  let* _ := AddKeys (metaCache cache) [getGroupMembersHashKey groupID] in
  ret cache.

Definition GetGroupMemberIDs (g : GroupCacheRedis) (groupID : string)
    : M (list string) :=
  getCache (rcClient g) (getGroupMemberIDsKey groupID) (expireTime g)
    (fun _ => of_result (FindMemberUserID (groupMemberDB g) groupID)).

Fixpoint memberIDsLoop (g : GroupCacheRedis) (groupIDs : list string)
    (m : gmap string (list string)) : M (gmap string (list string)) :=
  match groupIDs with
  | [] => ret m
  | groupID :: rest =>
      let* userIDs := GetGroupMemberIDs g groupID in
      memberIDsLoop g rest (<[groupID := userIDs]> m)
  end.

Definition GetGroupsMemberIDs (g : GroupCacheRedis) (groupIDs : list string)
    : M (gmap string (list string)) :=
  memberIDsLoop g groupIDs ∅.

Definition DelGroupMemberIDs (g : GroupCacheRedis) (groupID : string)
    : M GroupCacheRedis :=
  let* cache := NewCache g in
  let* _ := AddKeys (metaCache cache) [getGroupMemberIDsKey groupID] in
  ret cache.

Definition GetJoinedGroupIDs (g : GroupCacheRedis) (userID : string)
    : M (list string) :=
  getCache (rcClient g) (getJoinedGroupsKey userID) (expireTime g)
    (fun _ => of_result (FindUserJoinedGroupID (groupMemberDB g) userID)).

Definition DelJoinedGroupID (g : GroupCacheRedis) (userIDs : list string)
    : M GroupCacheRedis :=
  let keys := appendKeys getJoinedGroupsKey userIDs in
  let* cache := NewCache g in
  let* _ := AddKeys (metaCache cache) keys in
  ret cache.

Definition GetGroupMemberInfo (g : GroupCacheRedis) (groupID userID : string)
    : M GroupMemberModel :=
  getCache (rcClient g) (getGroupMemberInfoKey groupID userID) (expireTime g)
    (fun _ => of_result (Take (groupMemberDB g) groupID userID)).

Definition GetGroupMembersInfo (g : GroupCacheRedis) (groupID : string)
    (userIDs : list string) : M (list GroupMemberModel) :=
  batchGetCache2 (rcClient g) (expireTime g) userIDs
    (fun userID => getGroupMemberInfoKey groupID userID)
    (fun userID => of_result (Take (groupMemberDB g) groupID userID)).

(** Modelled from the spec: [utils.BothExist] (package tools/utils is not
    among the sources) is the set intersection of its two slices, in the
    order of the second, which the one call site passes the cached list
    for. *)
Definition BothExist (a b : list string) : list string :=
  remove_dups (filter (fun x => x ∈ a) b).

(** Lines 282-286: the candidate IDs.  [userIDs] is a slice that may be nil:
    [None] is nil, [Some []] is an empty slice that is not nil. *)
Definition candidateIDs (userIDs : option (list string))
    (groupMemberIDs : list string) : list string :=
  match userIDs with
  | Some userIDs => BothExist userIDs groupMemberIDs
  | None => groupMemberIDs
  end.

Section Pagination.

(** [utils.Paginate(es, pageNumber, showNumber)] is not among the sources
    either; the methods that call it take it as a parameter. *)
Variable Paginate : list string -> Z -> Z -> list string.

(** The method returns its three values also when [err] is not nil, so
    they are kept as a triple. *)
Definition GetGroupMembersPage (g : GroupCacheRedis) (groupID : string)
    (userIDs : option (list string)) (showNumber pageNumber : Z)
    : M (Z * list GroupMemberModel * option error) :=
  let* r := attempt (GetGroupMemberIDs g groupID) in
  match r with
  | Error err => ret (0%Z, [], Some err)
  | Okay groupMemberIDs =>
      let userIDs := candidateIDs userIDs groupMemberIDs in
      let* r := attempt (GetGroupMembersInfo g groupID
                           (Paginate userIDs showNumber showNumber)) in
      match r with
      | Okay groupMembers =>
          ret (uint32 (Z.of_nat (length userIDs)), groupMembers, None)
      | Error err =>
          ret (uint32 (Z.of_nat (length userIDs)), [], Some err)
      end
  end.

End Pagination.

Definition GetAllGroupMembersInfo (g : GroupCacheRedis) (groupID : string)
    : M (list GroupMemberModel) :=
  let* groupMemberIDs := GetGroupMemberIDs g groupID in
  GetGroupMembersInfo g groupID groupMemberIDs.

Definition GetAllGroupMemberInfo (g : GroupCacheRedis) (groupID : string)
    : M (list GroupMemberModel) :=
  let* groupMemberIDs := GetGroupMemberIDs g groupID in
  GetGroupMembersInfo g groupID groupMemberIDs.

Definition DelGroupMembersInfo (g : GroupCacheRedis) (groupID : string)
    (userIDs : list string) : M GroupCacheRedis :=
  let keys := appendKeys (fun userID => getGroupMemberInfoKey groupID userID) userIDs in
  let* cache := NewCache g in
  let* _ := AddKeys (metaCache cache) keys in
  ret cache.

Definition DelGroupsMemberNum (g : GroupCacheRedis) (groupID : list string)
    : M GroupCacheRedis :=
  let keys := appendKeys getGroupMemberNumKey groupID in
  let* cache := NewCache g in
  let* _ := AddKeys (metaCache cache) keys in
  ret cache.

(** ** Calls as data

    The six [Del*] methods and the read methods of the [GroupCache]
    interface, as values, so that a statement can range over "every Del*
    method" and over chains of them. *)

Inductive DelCall :=
  | CallDelGroupsInfo (groupIDs : list string)
  | CallDelGroupMembersHash (groupID : string)
  | CallDelGroupMemberIDs (groupID : string)
  | CallDelJoinedGroupID (userIDs : list string)
  | CallDelGroupMembersInfo (groupID : string) (userIDs : list string)
  | CallDelGroupsMemberNum (groupIDs : list string).

Definition callDel (g : GroupCacheRedis) (c : DelCall) : M GroupCacheRedis :=
  match c with
  | CallDelGroupsInfo groupIDs => DelGroupsInfo g groupIDs
  | CallDelGroupMembersHash groupID => DelGroupMembersHash g groupID
  | CallDelGroupMemberIDs groupID => DelGroupMemberIDs g groupID
  | CallDelJoinedGroupID userIDs => DelJoinedGroupID g userIDs
  | CallDelGroupMembersInfo groupID userIDs => DelGroupMembersInfo g groupID userIDs
  | CallDelGroupsMemberNum groupIDs => DelGroupsMemberNum g groupIDs
  end.

(** The cache keys of the entities a [Del*] call names. *)
Definition delKeys (c : DelCall) : list string :=
  match c with
  | CallDelGroupsInfo groupIDs => getGroupInfoKey <$> groupIDs
  | CallDelGroupMembersHash groupID => [getGroupMembersHashKey groupID]
  | CallDelGroupMemberIDs groupID => [getGroupMemberIDsKey groupID]
  | CallDelJoinedGroupID userIDs => getJoinedGroupsKey <$> userIDs
  | CallDelGroupMembersInfo groupID userIDs =>
      getGroupMemberInfoKey groupID <$> userIDs
  | CallDelGroupsMemberNum groupIDs => getGroupMemberNumKey <$> groupIDs
  end.

(** [g.Del1(..).Del2(..)...]: each call is made on the accumulator the
    previous one returned. *)
Fixpoint chainDel (g : GroupCacheRedis) (cs : list DelCall) : M GroupCacheRedis :=
  match cs with
  | [] => ret g
  | c :: rest => let* g1 := callDel g c in chainDel g1 rest
  end.

Inductive ReadCall :=
  | CallGetGroupsInfo (groupIDs : list string)
  | CallGetGroupInfo (groupID : string)
  | CallGetGroupMembersHash (groupID : string)
  | CallGetGroupMemberHashMap (groupIDs : list string)
  | CallGetGroupMemberIDs (groupID : string)
  | CallGetGroupsMemberIDs (groupIDs : list string)
  | CallGetJoinedGroupIDs (userID : string)
  | CallGetGroupMemberInfo (groupID userID : string)
  | CallGetGroupMembersInfo (groupID : string) (userIDs : list string)
  | CallGetAllGroupMembersInfo (groupID : string)
  | CallGetGroupMembersPage (groupID : string) (userIDs : option (list string))
      (showNumber pageNumber : Z)
  | CallGetGroupMemberNum (groupID : string).

Definition discard {A} (c : M A) : M unit := let* _ := c in ret tt.

Definition callRead (Paginate : list string -> Z -> Z -> list string)
    (g : GroupCacheRedis) (r : ReadCall) : M unit :=
  match r with
  | CallGetGroupsInfo groupIDs => discard (GetGroupsInfo g groupIDs)
  | CallGetGroupInfo groupID => discard (GetGroupInfo g groupID)
  | CallGetGroupMembersHash groupID => discard (GetGroupMembersHash g groupID)
  | CallGetGroupMemberHashMap groupIDs => discard (GetGroupMemberHashMap g groupIDs)
  | CallGetGroupMemberIDs groupID => discard (GetGroupMemberIDs g groupID)
  | CallGetGroupsMemberIDs groupIDs => discard (GetGroupsMemberIDs g groupIDs)
  | CallGetJoinedGroupIDs userID => discard (GetJoinedGroupIDs g userID)
  | CallGetGroupMemberInfo groupID userID =>
      discard (GetGroupMemberInfo g groupID userID)
  | CallGetGroupMembersInfo groupID userIDs =>
      discard (GetGroupMembersInfo g groupID userIDs)
  | CallGetAllGroupMembersInfo groupID => discard (GetAllGroupMembersInfo g groupID)
  | CallGetGroupMembersPage groupID userIDs showNumber pageNumber =>
      discard (GetGroupMembersPage Paginate g groupID userIDs showNumber pageNumber)
  | CallGetGroupMemberNum groupID => discard (GetGroupMemberNum g groupID)
  end.


(** ** The page the specification describes *)

(** Modelled from the spec: "a page (offset = pageNumber×showNumber,
    length = showNumber)" of a list, fewer at its end. *)
Definition specPage {A} (es : list A) (pageNumber showNumber : Z) : list A :=
  take (Z.to_nat showNumber) (drop (Z.to_nat (pageNumber * showNumber)) es).

(** ** A small store and cache to run the methods on *)

Definition tenIDs : list string :=
  ["u1"; "u2"; "u3"; "u4"; "u5"; "u6"; "u7"; "u8"; "u9"; "u10"].

Definition memberOf (groupID userID : string) : GroupMemberModel :=
  {| MemberGroupID := groupID; UserID := userID |}.

Definition sampleGroupDB : GroupModelInterface := {|
  GroupTake := fun groupID =>
    if String.eqb groupID "g" then Okay {| GroupID := "g" |}
    else Error ErrRecordNotFound
|}.

Definition sampleMemberDB : GroupMemberModelInterface := {|
  FindMemberUserID := fun groupID =>
    if String.eqb groupID "g" then Okay tenIDs
    else if String.eqb groupID "down" then Error (ErrOther "store unavailable")
    else Okay [];
  Take := fun groupID userID =>
    if String.eqb groupID "g" && bool_decide (userID ∈ tenIDs)
    then Okay (memberOf groupID userID)
    else Error ErrRecordNotFound;
  FindUserJoinedGroupID := fun userID =>
    if bool_decide (userID ∈ tenIDs) then Okay ["g"] else Okay [];
  TakeGroupMemberNum := fun groupID =>
    if String.eqb groupID "g" then Okay 10%Z
    else if String.eqb groupID "down" then Error (ErrOther "store unavailable")
    else Okay 0%Z
|}.

Definition sampleHashCode : string -> result Z :=
  fun groupID => if String.eqb groupID "g" then Okay 42%Z else Okay 0%Z.

Definition sampleClient : Client := NewClient (RedisHandle 0) (OptionsHandle 0).

Definition emptyWorld : World := {| redis := ∅; heap := [] |}.

(** What [NewGroupCacheRedis] returns in the empty world, and the world it
    leaves. *)
Definition sampleCache : GroupCacheRedis := {|
  metaCache := 0;
  groupDB := sampleGroupDB;
  groupMemberDB := sampleMemberDB;
  groupRequestDB := GroupRequestDB "group_request";
  expireTime := groupExpireTime;
  rcClient := sampleClient;
  hashCode := Some sampleHashCode
|}.

Definition sampleWorld : World :=
  {| redis := ∅; heap := [{| mc_rcClient := sampleClient; keys := [] |}] |}.

(** ** Auxiliary definitions for the statements *)

(** The instance [NewCache] builds from [g] around the accumulator at [m]. *)
Definition derivedCache (g : GroupCacheRedis) (m : loc) : GroupCacheRedis :=
  {| rcClient := rcClient g;
     expireTime := expireTime g;
     groupDB := groupDB g;
     groupMemberDB := groupMemberDB g;
     groupRequestDB := groupRequestDB g;
     metaCache := m;
     hashCode := None |}.

(** The world after one more accumulator object has been allocated. *)
Definition allocated (rc : Client) (ks : list string) (w : World) : World :=
  set_heap (heap w ++ [{| mc_rcClient := rc; keys := ks |}]) w.




(** ** Further auxiliary definitions *)

(** Whether an identifier contains the dash that [getGroupMemberInfoKey]
    puts between the group ID and the user ID. *)
Fixpoint hasDash (s : string) : bool :=
  match s with
  | EmptyString => false
  | String c rest => Ascii.eqb c "-"%char || hasDash rest
  end.

(** The value of a lookup that returned one. *)
Definition found {A} (o : outcome A) : option A :=
  match o with
  | Ok a => Some a
  | _ => None
  end.

(** A lookup that returned a value or found no record: the two outcomes a
    batch read goes on after. *)
Definition passes {A} (o : outcome A) : Prop :=
  match o with
  | Ok _ => True
  | Err e => e = ErrRecordNotFound
  | Panic => False
  end.



(** A [Del*] call followed by the commit of the accumulator it returned. *)
Definition delThenCommit (g : GroupCacheRedis) (c : DelCall) : M unit :=
  let* acc := callDel g c in
  ExecDel (metaCache acc).

(** A store that has a record for every pair and one whose member lookups
    time out, with caches over them. *)
Definition openMemberDB : GroupMemberModelInterface := {|
  FindMemberUserID := fun groupID => Okay ["x"; "y"];
  Take := fun groupID userID => Okay (memberOf groupID userID);
  FindUserJoinedGroupID := fun userID => Okay ["t"];
  TakeGroupMemberNum := fun groupID => Okay 2%Z
|}.

Definition timeoutMemberDB : GroupMemberModelInterface := {|
  FindMemberUserID := fun groupID => Okay ["x"; "y"];
  Take := fun groupID userID =>
    if String.eqb userID "y" then Error (ErrOther "timeout")
    else Okay (memberOf groupID userID);
  FindUserJoinedGroupID := fun userID => Error (ErrOther "timeout");
  TakeGroupMemberNum := fun groupID => Error (ErrOther "timeout")
|}.

Definition cacheOver (mdb : GroupMemberModelInterface) : GroupCacheRedis := {|
  metaCache := 0;
  groupDB := sampleGroupDB;
  groupMemberDB := mdb;
  groupRequestDB := GroupRequestDB "group_request";
  expireTime := groupExpireTime;
  rcClient := sampleClient;
  hashCode := Some sampleHashCode
|}.

(** A computation that does not look at the accumulators: run on a world
    with another heap it returns the same and leaves the same backend. *)
Definition heap_blind {A} (c : M A) : Prop :=
  ∀ w h, c (set_heap h w) = ((c w).1, set_heap h (c w).2).

(** ** What a read loads

    For each read method, the entries its get-or-load calls have to store:
    the key of every lookup the method makes, with the encoded value the
    store (or the hash loader) of the instance answers for it.  A lookup
    the store answers with an error has no entry. *)













(** Two runs of a read that return the same and leave the same backend. *)
Definition sameRead {A} (c : M A) (w1 w2 : World) : Prop :=
  (c w1).1 = (c w2).1 ∧ redis (c w1).2 = redis (c w2).2.

(** * Properties *)

(** ** Cache keys *)

(** C8: every cache key is its entity's fixed prefix followed by the
    identifier, and the per-member key joins the group and user IDs with a
    dash. *)
Theorem cache_keys_prefix_then_id (groupID userID : string) :
  getGroupInfoKey groupID = "GROUP_INFO:" +:+ groupID
  ∧ getGroupMemberIDsKey groupID = "GROUP_MEMBER_IDS:" +:+ groupID
  ∧ getGroupMembersHashKey groupID = "GROUP_MEMBERS_HASH2:" +:+ groupID
  ∧ getJoinedGroupsKey userID = "JOIN_GROUPS_KEY:" +:+ userID
  ∧ getGroupMemberNumKey groupID = "GROUP_MEMBER_NUM_CACHE:" +:+ groupID
  ∧ getGroupMemberInfoKey groupID userID
    = "GROUP_MEMBER_INFO:" +:+ groupID +:+ "-" +:+ userID.
Proof. repeat split. Qed.

Example getGroupMemberInfoKey_sample :
  getGroupMemberInfoKey "g" "u1" = "GROUP_MEMBER_INFO:g-u1".
Proof. reflexivity. Qed.

(** ** The index helpers *)

Lemma rangeIndex_Some key keys i j :
  rangeIndex key keys i = Some j →
  ∃ n : nat, j = (i + Z.of_nat n)%Z ∧ keys !! n = Some key
             ∧ ∀ m : nat, m < n → keys !! m ≠ Some key.
Proof.
  revert i. induction keys as [|k rest IH]; intros i Hr; simpl in Hr; [done|].
  destruct (String.eqb k key) eqn:Hk.
  - apply String.eqb_eq in Hk. injection Hr as <-. exists 0.
    split; [lia|]. split; [by rewrite Hk|]. intros m Hm. lia.
  - apply String.eqb_neq in Hk. destruct (IH _ Hr) as (n & -> & Hn & Hfirst).
    exists (S n). split; [lia|]. split; [done|].
    intros [|m] Hm; simpl; [congruence|]. apply Hfirst. lia.
Qed.

Lemma rangeIndex_None key keys i :
  rangeIndex key keys i = None ↔ key ∉ keys.
Proof.
  revert i. induction keys as [|k rest IH]; intros i; simpl.
  - split; [intros _; apply not_elem_of_nil | done].
  - destruct (String.eqb k key) eqn:Hk.
    + apply String.eqb_eq in Hk. subst k. split; [done|].
      intros Hn. exfalso. apply Hn. left.
    + apply String.eqb_neq in Hk. rewrite IH, not_elem_of_cons.
      split; [intros Hr; split; [congruence | done] | intros [_ Hr]; done].
Qed.

Lemma rangeIndex_found key keys :
  key ∈ keys →
  ∃ n : nat, rangeIndex key keys 0 = Some (Z.of_nat n) ∧ keys !! n = Some key
             ∧ ∀ m : nat, m < n → keys !! m ≠ Some key.
Proof.
  intros Hin. destruct (rangeIndex key keys 0) as [j|] eqn:Hr.
  - destruct (rangeIndex_Some _ _ _ _ Hr) as (n & -> & Hn & Hfirst).
    exists n. by rewrite Z.add_0_l.
  - apply rangeIndex_None in Hr. done.
Qed.

(** C7: [GetGroupIndex] and [GetGroupMemberIndex] return the position of the
    first occurrence of the item's cache key with a nil error when the key
    is in the list, and [(0, errIndex)] when it is not; [errIndex] is not
    the store's not-found error. *)
Theorem index_helpers_first_occurrence_or_errIndex
    (group : GroupModel) (groupMember : GroupMemberModel) (keys : list string) :
  let gk := getGroupInfoKey (GroupID group) in
  let mk := getGroupMemberInfoKey (MemberGroupID groupMember) (UserID groupMember) in
  (gk ∈ keys →
     ∃ n : nat, GetGroupIndex group keys = (Z.of_nat n, None)
       ∧ keys !! n = Some gk ∧ ∀ m : nat, m < n → keys !! m ≠ Some gk)
  ∧ (gk ∉ keys → GetGroupIndex group keys = (0%Z, Some errIndex))
  ∧ (mk ∈ keys →
     ∃ n : nat, GetGroupMemberIndex groupMember keys = (Z.of_nat n, None)
       ∧ keys !! n = Some mk ∧ ∀ m : nat, m < n → keys !! m ≠ Some mk)
  ∧ (mk ∉ keys → GetGroupMemberIndex groupMember keys = (0%Z, Some errIndex))
  ∧ errIndex ≠ ErrRecordNotFound.
Proof.
  intros gk mk. unfold GetGroupIndex, GetGroupMemberIndex. fold gk mk.
  repeat split.
  - intros Hin. destruct (rangeIndex_found _ _ Hin) as (n & Hr & Hn & Hf).
    exists n. by rewrite Hr.
  - intros Hout. apply rangeIndex_None with (i := 0%Z) in Hout. by rewrite Hout.
  - intros Hin. destruct (rangeIndex_found _ _ Hin) as (n & Hr & Hn & Hf).
    exists n. by rewrite Hr.
  - intros Hout. apply rangeIndex_None with (i := 0%Z) in Hout. by rewrite Hout.
  - discriminate.
Qed.

Example GetGroupIndex_sample :
  GetGroupIndex {| GroupID := "b" |} ["GROUP_INFO:a"; "GROUP_INFO:b"; "GROUP_INFO:b"]
  = (1%Z, None)
  ∧ GetGroupIndex {| GroupID := "c" |} ["GROUP_INFO:a"; "GROUP_INFO:b"]
    = (0%Z, Some errIndex)
  ∧ GetGroupMemberIndex (memberOf "g" "u2")
      ["GROUP_MEMBER_INFO:g-u1"; "GROUP_MEMBER_INFO:g-u2"]
    = (1%Z, None).
Proof. repeat split. Qed.

(** ** The invalidation accumulator *)

Lemma appendKeys_map f ids : appendKeys f ids = f <$> ids.
Proof.
  unfold appendKeys.
  enough (Hgen : ∀ acc, fold_left (λ keys id, keys ++ [f id]) ids acc
                        = acc ++ (f <$> ids)) by apply (Hgen []).
  induction ids as [|id rest IH]; intros acc; simpl.
  - by rewrite app_nil_r.
  - rewrite IH. by rewrite <- app_assoc.
Qed.

Lemma NewCache_run g w mc :
  heap w !! metaCache g = Some mc →
  NewCache g w
  = (Ok (derivedCache g (length (heap w))), allocated (rcClient g) (keys mc) w).
Proof.
  intros Hg. unfold NewCache, bind, GetPreDelKeys. rewrite Hg. reflexivity.
Qed.

Lemma NewCache_nil g w :
  heap w !! metaCache g = None → NewCache g w = (Panic, w).
Proof.
  intros Hg. unfold NewCache, bind, GetPreDelKeys. by rewrite Hg.
Qed.

Lemma AddKeys_fresh rc ks more w :
  AddKeys (length (heap w)) more (allocated rc ks w)
  = (Ok tt, allocated rc (ks ++ more) w).
Proof.
  unfold AddKeys, allocated, set_heap; simpl.
  rewrite lookup_app_r, Nat.sub_diag by lia. simpl.
  rewrite insert_app_r_alt, Nat.sub_diag by lia. reflexivity.
Qed.

(** Every [Del*] method on an instance whose accumulator exists allocates
    one new accumulator holding the old pending keys followed by the keys of
    the call, and touches nothing else. *)
Lemma callDel_run g c w mc :
  heap w !! metaCache g = Some mc →
  callDel g c w
  = (Ok (derivedCache g (length (heap w))),
     allocated (rcClient g) (keys mc ++ delKeys c) w).
Proof.
  intros Hg.
  destruct c; simpl;
    unfold DelGroupsInfo, DelGroupMembersHash, DelGroupMemberIDs,
           DelJoinedGroupID, DelGroupMembersInfo, DelGroupsMemberNum;
    unfold bind at 1; rewrite (NewCache_run _ _ _ Hg);
    unfold bind; simpl metaCache; rewrite AddKeys_fresh;
    rewrite ?appendKeys_map; reflexivity.
Qed.

Lemma callDel_nil g c w :
  heap w !! metaCache g = None → callDel g c w = (Panic, w).
Proof.
  intros Hg.
  destruct c; simpl;
    unfold DelGroupsInfo, DelGroupMembersHash, DelGroupMemberIDs,
           DelJoinedGroupID, DelGroupMembersInfo, DelGroupsMemberNum;
    unfold bind at 1; by rewrite (NewCache_nil _ _ Hg).
Qed.

Lemma pending_allocated_new rc ks w :
  pending (length (heap w)) (allocated rc ks w) = Some ks.
Proof.
  unfold pending, allocated; simpl.
  by rewrite lookup_app_r, Nat.sub_diag by lia.
Qed.

Lemma pending_allocated_old rc ks w m P :
  pending m w = Some P → pending m (allocated rc ks w) = Some P.
Proof.
  unfold pending, allocated; simpl. intros Hm.
  destruct (heap w !! m) as [mc|] eqn:Hl; [|done].
  by rewrite (lookup_app_l_Some _ _ _ _ Hl).
Qed.

Lemma pending_lt m w P : pending m w = Some P → m < length (heap w).
Proof.
  unfold pending. intros Hm. destruct (heap w !! m) eqn:Hl; [|done].
  by apply lookup_lt_Some in Hl.
Qed.

Lemma lookup_foldr_delete (r : gmap string Entry) (ks : list string) (k : string) :
  foldr delete r ks !! k = if bool_decide (k ∈ ks) then None else r !! k.
Proof.
  induction ks as [|k' rest IH]; simpl; [done|].
  destruct (decide (k' = k)) as [->|Hne].
  - rewrite lookup_delete_eq. rewrite bool_decide_eq_true_2; [done | left].
  - rewrite lookup_delete_ne by done. rewrite IH.
    destruct (decide (k ∈ rest)) as [Hin|Hout].
    + rewrite !bool_decide_eq_true_2; [done | by right | done].
    + rewrite !bool_decide_eq_false_2; [done | | done].
      rewrite not_elem_of_cons. split; [congruence | done].
Qed.

Lemma ExecDel_run m w mc :
  heap w !! m = Some mc →
  ExecDel m w
  = (Ok tt, {| redis := foldr delete (redis w) (keys mc);
               heap := <[m := {| mc_rcClient := mc_rcClient mc; keys := [] |}]>
                         (heap w) |}).
Proof. intros Hm. unfold ExecDel. by rewrite Hm. Qed.

(** C2: a [Del*] call [x] on an instance [g] with pending keys [P] returns a
    new accumulator [acc1] holding [P] and the keys of [x], and leaves [g]'s
    own pending keys as they were; a second call [y] made on [acc1] returns
    an accumulator holding the keys of both, again without changing [g] or
    [acc1]; and the commit of that last accumulator deletes every one of
    these keys from the backend, those added by the first link too, and no
    other key. *)
Theorem del_chain_accumulates_and_commits
    (g : GroupCacheRedis) (x y : DelCall) (w : World) (P : list string) :
  pending (metaCache g) w = Some P →
  ∃ acc1 w1 acc2 w2 w3,
    callDel g x w = (Ok acc1, w1)
    ∧ pending (metaCache acc1) w1 = Some (P ++ delKeys x)
    ∧ pending (metaCache g) w1 = Some P
    ∧ metaCache acc1 ≠ metaCache g
    ∧ callDel acc1 y w1 = (Ok acc2, w2)
    ∧ pending (metaCache acc2) w2 = Some (P ++ delKeys x ++ delKeys y)
    ∧ pending (metaCache acc1) w2 = Some (P ++ delKeys x)
    ∧ pending (metaCache g) w2 = Some P
    ∧ ExecDel (metaCache acc2) w2 = (Ok tt, w3)
    ∧ (∀ k, k ∈ P ++ delKeys x ++ delKeys y → redis w3 !! k = None)
    ∧ (∀ k, k ∉ P ++ delKeys x ++ delKeys y → redis w3 !! k = redis w !! k).
Proof.
  intros HP. pose proof (pending_lt _ _ _ HP) as Hlt.
  assert (∃ mc, heap w !! metaCache g = Some mc ∧ keys mc = P) as (mc & Hg & Hk).
  { unfold pending in HP. destruct (heap w !! metaCache g) as [mc|]; [|done].
    exists mc. split; [done | by injection HP]. }
  set (acc1 := derivedCache g (length (heap w))).
  set (w1 := allocated (rcClient g) (P ++ delKeys x) w).
  assert (H1 : pending (metaCache acc1) w1 = Some (P ++ delKeys x))
    by apply pending_allocated_new.
  assert (Hacc1 : heap w1 !! metaCache acc1
                  = Some {| mc_rcClient := rcClient g; keys := P ++ delKeys x |}).
  { unfold w1, allocated, acc1; simpl.
    by rewrite lookup_app_r, Nat.sub_diag by lia. }
  set (acc2 := derivedCache acc1 (length (heap w1))).
  set (w2 := allocated (rcClient acc1) ((P ++ delKeys x) ++ delKeys y) w1).
  assert (Hacc2 : heap w2 !! metaCache acc2
                  = Some {| mc_rcClient := rcClient acc1;
                            keys := (P ++ delKeys x) ++ delKeys y |}).
  { unfold w2, allocated, acc2; simpl.
    by rewrite lookup_app_r, Nat.sub_diag by lia. }
  eexists acc1, w1, acc2, w2, _.
  split. { rewrite (callDel_run _ _ _ _ Hg), Hk. reflexivity. }
  split; [done|].
  split. { by apply pending_allocated_old. }
  split. { simpl. lia. }
  split. { by rewrite (callDel_run _ _ _ _ Hacc1). }
  split. { unfold pending. rewrite Hacc2. simpl. by rewrite <- app_assoc. }
  split. { by apply pending_allocated_old. }
  split. { by do 2 apply pending_allocated_old. }
  split. { apply (ExecDel_run _ _ _ Hacc2). }
  simpl. split; intros k Hin; rewrite lookup_foldr_delete.
  - rewrite bool_decide_eq_true_2; [done | by rewrite <- app_assoc].
  - rewrite bool_decide_eq_false_2; [done | by rewrite <- app_assoc].
Qed.

(** On the sample cache: [DelGroupsInfo("g").DelGroupMemberIDs("g")] and a
    commit leave neither key in the backend, whatever it held before. *)
Lemma del_chain_accumulates_and_commits_witness :
  pending (metaCache sampleCache) sampleWorld = Some []
  ∧ ∃ acc2 w2 w3,
      chainDel sampleCache [CallDelGroupsInfo ["g"]; CallDelGroupMemberIDs "g"]
        sampleWorld = (Ok acc2, w2)
      ∧ pending (metaCache acc2) w2 = Some ["GROUP_INFO:g"; "GROUP_MEMBER_IDS:g"]
      ∧ ExecDel (metaCache acc2) w2 = (Ok tt, w3)
      ∧ redis w3 !! "GROUP_INFO:g" = None.
Proof.
  split; [reflexivity|].
  destruct (del_chain_accumulates_and_commits sampleCache
              (CallDelGroupsInfo ["g"]) (CallDelGroupMemberIDs "g")
              sampleWorld [] eq_refl)
    as (acc1 & w1 & acc2 & w2 & w3 & Hx & _ & _ & _ & Hy & Hp & _ & _ & Hc & Hdel & _).
  exists acc2, w2, w3. split.
  - cbn [chainDel]. unfold bind at 1. rewrite Hx. unfold bind at 1. rewrite Hy.
    reflexivity.
  - split; [exact Hp|]. split; [exact Hc|]. apply Hdel. simpl.
    apply list_elem_of_here.
Defined.

Lemma callDel_frame g c w :
  redis (callDel g c w).2 = redis w ∧ heap w `prefix_of` heap (callDel g c w).2.
Proof.
  destruct (heap w !! metaCache g) as [mc|] eqn:Hg.
  - rewrite (callDel_run _ _ _ _ Hg). simpl. split; [done|].
    by apply prefix_app_r.
  - by rewrite (callDel_nil _ _ _ Hg).
Qed.

(** C9: no [Del*] call, and no chain of [Del*] calls however long, changes
    the cache backend: the Redis key space after the calls is the one
    before them, and the accumulator objects that existed before are still
    there unchanged (the calls only allocate new ones).  This holds whatever
    the calls return. *)
Theorem del_calls_leave_backend_unchanged
    (g : GroupCacheRedis) (cs : list DelCall) (w : World) :
  redis (chainDel g cs w).2 = redis w
  ∧ heap w `prefix_of` heap (chainDel g cs w).2.
Proof.
  revert g w. induction cs as [|c rest IH]; intros g w; simpl; [done|].
  unfold bind. pose proof (callDel_frame g c w) as [Hr Hh].
  destruct (callDel g c w) as [[g1| |] w1]; simpl in *; [|done..].
  destruct (IH g1 w1) as [Hr' Hh']. split; [congruence|].
  by transitivity (heap w1).
Qed.

(** A cached entry survives the [Del*] calls and goes at the commit. *)
Example del_then_commit_sample :
  let w := set_redis {["GROUP_INFO:g" := {| value := VGroup {| GroupID := "g" |};
                                            ttl := groupExpireTime |}]} sampleWorld in
  ∃ acc w1 w2,
    DelGroupsInfo sampleCache ["g"] w = (Ok acc, w1)
    ∧ redis w1 !! "GROUP_INFO:g" = redis w !! "GROUP_INFO:g"
    ∧ is_Some (redis w1 !! "GROUP_INFO:g")
    ∧ ExecDel (metaCache acc) w1 = (Ok tt, w2)
    ∧ redis w2 !! "GROUP_INFO:g" = None.
Proof.
  intros w. eexists _, _, _. split.
  { apply (callDel_run sampleCache (CallDelGroupsInfo ["g"]) w
             {| mc_rcClient := sampleClient; keys := [] |}). reflexivity. }
  split; [reflexivity|]. split; [by eexists|].
  split; [reflexivity|]. simpl. apply lookup_delete_eq.
Qed.

(** ** The derived instances have no hash loader *)

Lemma getCache_miss {T} `{Codec T} rc key expire (fn : unit → outcome T) w :
  redis w !! key = None →
  getCache rc key expire fn w
  = match fn tt with
    | Ok v => (Ok v, set_redis (<[key := {| value := encode v; ttl := expire |}]>
                                  (redis w)) w)
    | Err e => (Err e, w)
    | Panic => (Panic, w)
    end.
Proof. intros Hk. unfold getCache. by rewrite Hk. Qed.

Lemma getCache_hit {T} `{Codec T} rc key expire (fn : unit → outcome T) w e :
  redis w !! key = Some e →
  getCache rc key expire fn w
  = match decode (value e) with
    | Some v => (Ok v, w)
    | None => (Err (ErrOther "decode"), w)
    end.
Proof. intros Hk. unfold getCache. by rewrite Hk. Qed.

Lemma GetGroupMembersHash_nil_loader g groupID w :
  hashCode g = None →
  redis w !! getGroupMembersHashKey groupID = None →
  GetGroupMembersHash g groupID w = (Panic, w).
Proof.
  intros Hh Hk. unfold GetGroupMembersHash.
  rewrite (getCache_miss _ _ _ _ _ Hk). by rewrite Hh.
Qed.

(** C4: the instance [NewCache] returns, and so the accumulator any [Del*]
    method returns, has a nil [hashCode]; [GetGroupMembersHash] on it calls
    that nil function, and panics, whenever the group's hash key is not in
    the cache. *)
Theorem derived_cache_has_nil_hashCode
    (g acc : GroupCacheRedis) (w w' : World) :
  (NewCache g w = (Ok acc, w') ∨ ∃ c, callDel g c w = (Ok acc, w')) →
  hashCode acc = None
  ∧ ∀ groupID w2,
      redis w2 !! getGroupMembersHashKey groupID = None →
      GetGroupMembersHash acc groupID w2 = (Panic, w2).
Proof.
  intros Hd.
  assert (Hnil : hashCode acc = None).
  { destruct (heap w !! metaCache g) as [mc|] eqn:Hg.
    - destruct Hd as [Hd | [c Hd]].
      + rewrite (NewCache_run _ _ _ Hg) in Hd. by injection Hd as <- _.
      + rewrite (callDel_run _ _ _ _ Hg) in Hd. by injection Hd as <- _.
    - destruct Hd as [Hd | [c Hd]].
      + by rewrite (NewCache_nil _ _ Hg) in Hd.
      + by rewrite (callDel_nil _ _ _ Hg) in Hd. }
  split; [done|]. intros groupID w2 Hmiss.
  by apply GetGroupMembersHash_nil_loader.
Qed.

(** [sampleCache] itself has a loader and answers 42 for group "g"; the
    accumulator [DelGroupMemberIDs("g")] returns panics on the same read. *)
Lemma derived_cache_has_nil_hashCode_witness :
  ∃ acc w',
    DelGroupMemberIDs sampleCache "g" sampleWorld = (Ok acc, w')
    ∧ (GetGroupMembersHash sampleCache "g" w').1 = Ok 42%Z
    ∧ hashCode acc = None
    ∧ GetGroupMembersHash acc "g" w' = (Panic, w').
Proof.
  eexists _, _. split; [reflexivity|]. split; [reflexivity|].
  destruct (derived_cache_has_nil_hashCode sampleCache _ sampleWorld _
              (or_intror (ex_intro _ (CallDelGroupMemberIDs "g") eq_refl)))
    as [Hnil Hpanic].
  split; [exact Hnil|]. apply Hpanic. reflexivity.
Defined.

(** ** Time-to-live *)


















(** ** The hash map of several groups *)

Lemma getGroupMembersHashKey_inj a b :
  getGroupMembersHashKey a = getGroupMembersHashKey b → a = b.
Proof.
  unfold getGroupMembersHashKey, groupMembersHashKey. intros Heq.
  by simplify_eq/=.
Qed.

Lemma getGroupMemberNumKey_inj a b :
  getGroupMemberNumKey a = getGroupMemberNumKey b → a = b.
Proof.
  unfold getGroupMemberNumKey, groupMemberNumKey. intros Heq. by simplify_eq/=.
Qed.











Lemma uint32_in_range n : (0 ≤ n < 2 ^ 32)%Z → uint32 n = n.
Proof. intros Hn. unfold uint32. by apply Z.mod_small. Qed.



(** ** Pages of group members *)

Lemma remove_dups_sublist (l : list string) : remove_dups l `sublist_of` l.
Proof.
  induction l as [|x l IH]; simpl; [constructor|].
  destruct (decide_rel (∈) x l); by constructor.
Qed.

Lemma BothExist_spec (a b : list string) :
  (∀ x, x ∈ BothExist a b ↔ x ∈ a ∧ x ∈ b)
  ∧ BothExist a b `sublist_of` b
  ∧ NoDup (BothExist a b).
Proof.
  unfold BothExist. split; [|split].
  - intros x. by rewrite elem_of_remove_dups, list_elem_of_filter.
  - etransitivity; [apply remove_dups_sublist | apply sublist_filter].
  - apply NoDup_remove_dups.
Qed.

Lemma GetGroupMembersPage_run Paginate g groupID userIDs showNumber pageNumber
    w groupMemberIDs w1 :
  GetGroupMemberIDs g groupID w = (Ok groupMemberIDs, w1) →
  GetGroupMembersPage Paginate g groupID userIDs showNumber pageNumber w
  = let cand := candidateIDs userIDs groupMemberIDs in
    match GetGroupMembersInfo g groupID (Paginate cand showNumber showNumber) w1 with
    | (Ok groupMembers, w2) =>
        (Ok (uint32 (Z.of_nat (length cand)), groupMembers, None), w2)
    | (Err err, w2) => (Ok (uint32 (Z.of_nat (length cand)), [], Some err), w2)
    | (Panic, w2) => (Panic, w2)
    end.
Proof.
  intros Hids. unfold GetGroupMembersPage, bind at 1, attempt at 1.
  rewrite Hids. unfold bind, attempt. simpl.
  by destruct (GetGroupMembersInfo g groupID _ w1) as [[ms|e|] w2].
Qed.

(** C3: with a non-nil [userIDs], the candidates of [GetGroupMembersPage]
    are the IDs that are both in [userIDs] and in the cached member-ID
    list, each once, in the order of the cached list; the total returned is
    their number and the records returned are loaded for a page of them. *)
Theorem candidates_intersect_in_cached_order
    (Paginate : list string → Z → Z → list string)
    (g : GroupCacheRedis) (groupID : string) (userIDs : list string)
    (showNumber pageNumber : Z) (w w1 : World) (groupMemberIDs : list string) :
  GetGroupMemberIDs g groupID w = (Ok groupMemberIDs, w1) →
  let cand := candidateIDs (Some userIDs) groupMemberIDs in
  (∀ x, x ∈ cand ↔ x ∈ userIDs ∧ x ∈ groupMemberIDs)
  ∧ cand `sublist_of` groupMemberIDs
  ∧ NoDup cand
  ∧ GetGroupMembersPage Paginate g groupID (Some userIDs) showNumber pageNumber w
    = match GetGroupMembersInfo g groupID (Paginate cand showNumber showNumber) w1 with
      | (Ok groupMembers, w2) =>
          (Ok (uint32 (Z.of_nat (length cand)), groupMembers, None), w2)
      | (Err err, w2) => (Ok (uint32 (Z.of_nat (length cand)), [], Some err), w2)
      | (Panic, w2) => (Panic, w2)
      end.
Proof.
  intros Hids cand. destruct (BothExist_spec userIDs groupMemberIDs) as (Hin & Hsub & Hnd).
  split; [exact Hin|]. split; [exact Hsub|]. split; [exact Hnd|].
  by rewrite (GetGroupMembersPage_run _ _ _ _ _ _ _ _ _ Hids).
Qed.

(** The caller asks for "u9", "zz", "u2": the candidates are "u2", "u9",
    in the order of the member list, and the total is 2. *)
Lemma candidates_intersect_in_cached_order_witness :
  candidateIDs (Some ["u9"; "zz"; "u2"]) tenIDs = ["u2"; "u9"]
  ∧ candidateIDs (Some ["u9"; "zz"; "u2"]) tenIDs `sublist_of` tenIDs
  ∧ ∃ members err,
      (GetGroupMembersPage specPage sampleCache "g" (Some ["u9"; "zz"; "u2"])
         2 0 sampleWorld).1 = Ok (2%Z, members, err).
Proof.
  split; [reflexivity|].
  destruct (candidates_intersect_in_cached_order specPage sampleCache "g"
              ["u9"; "zz"; "u2"] 2 0 sampleWorld _ tenIDs eq_refl)
    as (_ & Hsub & _ & Hrun).
  split; [exact Hsub|]. rewrite Hrun. by eexists _, _.
Defined.

(** C6: when no ID of a non-nil [userIDs] is in the cached member-ID list,
    [GetGroupMembersPage] returns total 0, no member and a nil error, for
    every [Paginate] whose page of the empty list is empty. *)
Theorem empty_intersection_is_no_error
    (Paginate : list string → Z → Z → list string)
    (g : GroupCacheRedis) (groupID : string) (userIDs : list string)
    (showNumber pageNumber : Z) (w w1 : World) (groupMemberIDs : list string) :
  (∀ p s, Paginate [] p s = []) →
  GetGroupMemberIDs g groupID w = (Ok groupMemberIDs, w1) →
  (∀ x, x ∈ userIDs → x ∉ groupMemberIDs) →
  GetGroupMembersPage Paginate g groupID (Some userIDs) showNumber pageNumber w
  = (Ok (0%Z, [], None), w1).
Proof.
  intros Hnil Hids Hdisj.
  rewrite (GetGroupMembersPage_run _ _ _ _ _ _ _ _ _ Hids). simpl.
  assert (Hcand : BothExist userIDs groupMemberIDs = []).
  { apply elem_of_nil_inv. intros x Hx.
    apply (BothExist_spec userIDs groupMemberIDs) in Hx as [Hu Hm].
    by apply (Hdisj x). }
  rewrite Hcand, Hnil. reflexivity.
Qed.

Lemma specPage_nil {A} p s : @specPage A [] p s = [].
Proof. unfold specPage. by rewrite drop_nil, take_nil. Qed.

Lemma empty_intersection_is_no_error_witness :
  GetGroupMembersPage specPage sampleCache "g" (Some ["zz"; "yy"]) 3 0 sampleWorld
  = (Ok (0%Z, [], None),
     (GetGroupMemberIDs sampleCache "g" sampleWorld).2).
Proof.
  apply (empty_intersection_is_no_error specPage sampleCache "g" ["zz"; "yy"]
           3 0 sampleWorld _ tenIDs).
  - intros p s. apply specPage_nil.
  - reflexivity.
  - intros x Hx Hm.
    apply elem_of_cons in Hx as [->|Hx].
    { revert Hm. apply (bool_decide_unpack ("zz" ∉ tenIDs)). exact I. }
    apply elem_of_cons in Hx as [->|Hx].
    { revert Hm. apply (bool_decide_unpack ("yy" ∉ tenIDs)). exact I. }
    by apply elem_of_nil in Hx.
Defined.

(** [GetGroupMembersPage] hands [showNumber] to [Paginate] in the place of
    the page number as well; its [pageNumber] is not read. *)
Lemma GetGroupMembersPage_pageNumber_unused
    Paginate g groupID userIDs showNumber (p q : Z) w :
  GetGroupMembersPage Paginate g groupID userIDs showNumber p w
  = GetGroupMembersPage Paginate g groupID userIDs showNumber q w.
Proof. reflexivity. Qed.

(** C1: on the ten-member group "g", with nil [userIDs] and [showNumber] 3,
    whatever [utils.Paginate] computes there is a page number, 0 or 1, for
    which [GetGroupMembersPage] does not return total 10 with the page of
    three members at offset [pageNumber * showNumber]: the call returns the
    same page for both. *)
Theorem GetGroupMembersPage_misses_the_page
    (Paginate : list string → Z → Z → list string) :
  ∃ pageNumber : Z,
    (0 ≤ pageNumber ≤ 1)%Z
    ∧ (GetGroupMembersPage Paginate sampleCache "g" None 3 pageNumber sampleWorld).1
      ≠ Ok (10%Z, memberOf "g" <$> specPage tenIDs pageNumber 3, None).
Proof.
  destruct (GetGroupMembersPage Paginate sampleCache "g" None 3 0 sampleWorld).1
    as [[[total ms] err]| |] eqn:Hr.
  - destruct ms as [|m rest].
    + exists 0%Z. split; [lia|]. rewrite Hr. intros Heq. by injection Heq.
    + destruct (decide (UserID m = "u1")) as [Hu|Hu].
      * exists 1%Z. split; [lia|].
        rewrite (GetGroupMembersPage_pageNumber_unused _ _ _ _ _ 1%Z 0%Z), Hr.
        intros Heq. injection Heq as _ Hm _ _. by rewrite Hm in Hu.
      * exists 0%Z. split; [lia|]. rewrite Hr.
        intros Heq. injection Heq as _ Hm _ _. by rewrite Hm in Hu.
  - exists 0%Z. split; [lia|]. by rewrite Hr.
  - exists 0%Z. split; [lia|]. by rewrite Hr.
Qed.

(** With a [Paginate] that takes the page at offset
    [pageNumber * showNumber], the call of the source, [Paginate(ids, 3, 3)],
    is the page at offset 9: the tenth member alone, for page 0 and for
    page 1, where the first three and the next three members were due. *)
Example GetGroupMembersPage_sample :
  (GetGroupMembersPage specPage sampleCache "g" None 3 0 sampleWorld).1
  = Ok (10%Z, [memberOf "g" "u10"], None)
  ∧ (GetGroupMembersPage specPage sampleCache "g" None 3 1 sampleWorld).1
    = Ok (10%Z, [memberOf "g" "u10"], None)
  ∧ memberOf "g" <$> specPage tenIDs 0 3
    = [memberOf "g" "u1"; memberOf "g" "u2"; memberOf "g" "u3"]
  ∧ memberOf "g" <$> specPage tenIDs 1 3
    = [memberOf "g" "u4"; memberOf "g" "u5"; memberOf "g" "u6"].
Proof. repeat split. Qed.

(** [NewGroupCacheRedis] in the empty world gives the sample cache. *)
Example NewGroupCacheRedis_sample :
  NewGroupCacheRedis (RedisHandle 0) sampleGroupDB sampleMemberDB
    (GroupRequestDB "group_request") (Some sampleHashCode) (OptionsHandle 0)
    emptyWorld
  = (Ok sampleCache, sampleWorld).
Proof. reflexivity. Qed.

(** * Further properties *)

(** ** Cache keys tell entities apart *)

Lemma string_app_assoc (a b c : string) : (a +:+ b) +:+ c = a +:+ b +:+ c.
Proof.
  induction a as [|x a IH]; [done|].
  change (String x ((a +:+ b) +:+ c) = String x (a +:+ b +:+ c)). by f_equal.
Qed.

Lemma getGroupInfoKey_inj a b : getGroupInfoKey a = getGroupInfoKey b → a = b.
Proof. unfold getGroupInfoKey, groupInfoKey. intros Heq. by simplify_eq/=. Qed.

Lemma getGroupMemberIDsKey_inj a b :
  getGroupMemberIDsKey a = getGroupMemberIDsKey b → a = b.
Proof. unfold getGroupMemberIDsKey, groupMemberIDsKey. intros Heq. by simplify_eq/=. Qed.

Lemma getJoinedGroupsKey_inj a b :
  getJoinedGroupsKey a = getJoinedGroupsKey b → a = b.
Proof. unfold getJoinedGroupsKey, joinedGroupsKey. intros Heq. by simplify_eq/=. Qed.

Lemma getGroupMemberInfoKey_inj_user groupID a b :
  getGroupMemberInfoKey groupID a = getGroupMemberInfoKey groupID b → a = b.
Proof.
  unfold getGroupMemberInfoKey. intros Heq.
  apply (inj (String.append groupMemberInfoKey)) in Heq.
  apply (inj (String.append groupID)) in Heq.
  by apply (inj (String.append "-")) in Heq.
Qed.

(** X1: each of the five keys made from one identifier determines that
    identifier: two groups (or users) never share such a key. *)
Theorem single_id_keys_injective (a b : string) :
  (getGroupInfoKey a = getGroupInfoKey b ↔ a = b)
  ∧ (getGroupMemberIDsKey a = getGroupMemberIDsKey b ↔ a = b)
  ∧ (getGroupMembersHashKey a = getGroupMembersHashKey b ↔ a = b)
  ∧ (getJoinedGroupsKey a = getJoinedGroupsKey b ↔ a = b)
  ∧ (getGroupMemberNumKey a = getGroupMemberNumKey b ↔ a = b).
Proof.
  repeat split; try (by intros ->).
  - apply getGroupInfoKey_inj.
  - apply getGroupMemberIDsKey_inj.
  - apply getGroupMembersHashKey_inj.
  - apply getJoinedGroupsKey_inj.
  - apply getGroupMemberNumKey_inj.
Qed.

(** X2: keys of different entity kinds never coincide, whatever the
    identifiers: the six prefixes keep the six key spaces apart. *)
Theorem keys_of_different_kinds_differ (a b c : string) :
  getGroupInfoKey a ≠ getGroupMemberIDsKey b
  ∧ getGroupInfoKey a ≠ getGroupMembersHashKey b
  ∧ getGroupInfoKey a ≠ getGroupMemberInfoKey b c
  ∧ getGroupInfoKey a ≠ getJoinedGroupsKey b
  ∧ getGroupInfoKey a ≠ getGroupMemberNumKey b
  ∧ getGroupMemberIDsKey a ≠ getGroupMembersHashKey b
  ∧ getGroupMemberIDsKey a ≠ getGroupMemberInfoKey b c
  ∧ getGroupMemberIDsKey a ≠ getJoinedGroupsKey b
  ∧ getGroupMemberIDsKey a ≠ getGroupMemberNumKey b
  ∧ getGroupMembersHashKey a ≠ getGroupMemberInfoKey b c
  ∧ getGroupMembersHashKey a ≠ getJoinedGroupsKey b
  ∧ getGroupMembersHashKey a ≠ getGroupMemberNumKey b
  ∧ getGroupMemberInfoKey a b ≠ getJoinedGroupsKey c
  ∧ getGroupMemberInfoKey a b ≠ getGroupMemberNumKey c
  ∧ getJoinedGroupsKey a ≠ getGroupMemberNumKey b.
Proof.
  unfold getGroupInfoKey, getGroupMemberIDsKey, getGroupMembersHashKey,
         getGroupMemberInfoKey, getJoinedGroupsKey, getGroupMemberNumKey,
         groupInfoKey, groupMemberIDsKey, groupMembersHashKey,
         groupMemberInfoKey, joinedGroupsKey, groupMemberNumKey.
  repeat split; intros Heq; simplify_eq/=.
Qed.

Lemma member_key_dash_shift (a b c : string) :
  getGroupMemberInfoKey (a +:+ "-" +:+ b) c
  = getGroupMemberInfoKey a (b +:+ "-" +:+ c).
Proof. unfold getGroupMemberInfoKey. by rewrite !string_app_assoc. Qed.

(** X3: the per-member key does not determine its pair.  A group ID that
    ends in a dash and an ID, with a user, has the key of the shorter group
    ID with the rest moved to the front of the user ID. *)
Theorem member_key_collides_on_dash (a b c : string) :
  getGroupMemberInfoKey (a +:+ "-" +:+ b) c
  = getGroupMemberInfoKey a (b +:+ "-" +:+ c)
  ∧ a +:+ "-" +:+ b ≠ a.
Proof.
  split.
  - apply member_key_dash_shift.
  - induction a as [|x a IH]; [done|]. intros Heq. apply IH.
    change (String x (a +:+ "-" +:+ b) = String x a) in Heq. by injection Heq.
Qed.

Lemma dash_split_unique (g1 g2 u1 u2 : string) :
  hasDash g1 = false → hasDash g2 = false →
  g1 +:+ "-" +:+ u1 = g2 +:+ "-" +:+ u2 → g1 = g2 ∧ u1 = u2.
Proof.
  revert g2. induction g1 as [|x g1 IH]; intros [|y g2] H1 H2 Heq; simpl in *.
  - by injection Heq.
  - injection Heq as <- _. by rewrite Ascii.eqb_refl in H2.
  - injection Heq as -> _. by rewrite Ascii.eqb_refl in H1.
  - injection Heq as -> Heq.
    apply orb_false_iff in H1 as [_ H1]. apply orb_false_iff in H2 as [_ H2].
    destruct (IH _ H1 H2 Heq) as [-> ->]. done.
Qed.

(** X4: for group IDs without a dash the per-member key does determine the
    pair of group and user. *)
Theorem member_key_injective_without_dash (g1 g2 u1 u2 : string) :
  hasDash g1 = false →
  hasDash g2 = false →
  getGroupMemberInfoKey g1 u1 = getGroupMemberInfoKey g2 u2 →
  g1 = g2 ∧ u1 = u2.
Proof.
  intros H1 H2 Heq. unfold getGroupMemberInfoKey in Heq.
  apply (inj (String.append groupMemberInfoKey)) in Heq.
  by apply dash_split_unique.
Qed.

Lemma member_key_injective_without_dash_witness :
  getGroupMemberInfoKey "g" "u-1" = getGroupMemberInfoKey "g" "u-1"
  ∧ ("g" = "g" ∧ "u-1" = "u-1").
Proof.
  split; [reflexivity|].
  apply (member_key_injective_without_dash "g" "g" "u-1" "u-1"); reflexivity.
Defined.

(** ** Locating an item among the keys built for a batch *)

Lemma rangeIndex_fmap (f : string → string) ids id i :
  (∀ x, f x = f id → x = id) →
  rangeIndex (f id) (f <$> ids) i = rangeIndex id ids i.
Proof.
  intros Hinj. revert i. induction ids as [|k rest IH]; intros i; simpl; [done|].
  rewrite IH. destruct (String.eqb k id) eqn:Hk.
  - apply String.eqb_eq in Hk as ->. by rewrite String.eqb_refl.
  - apply String.eqb_neq in Hk.
    destruct (String.eqb (f k) (f id)) eqn:Hfk; [|done].
    apply String.eqb_eq in Hfk. by destruct Hk; apply Hinj.
Qed.

Lemma rangeIndex_first id ids (n : nat) i :
  ids !! n = Some id →
  (∀ m, m < n → ids !! m ≠ Some id) →
  rangeIndex id ids i = Some (i + Z.of_nat n)%Z.
Proof.
  revert n i. induction ids as [|k rest IH]; intros n i Hn Hfirst; [done|].
  simpl. destruct n as [|n]; simpl in Hn.
  - injection Hn as ->. rewrite String.eqb_refl. f_equal. lia.
  - destruct (String.eqb k id) eqn:Hk.
    + apply String.eqb_eq in Hk as ->. by destruct (Hfirst 0); [lia|].
    + rewrite (IH n (i + 1)%Z Hn).
      * f_equal. lia.
      * intros m Hm. apply (Hfirst (S m)). lia.
Qed.

(** X5: in the keys a batch builds from a list of group IDs (user IDs of
    one group), [GetGroupIndex] ([GetGroupMemberIndex]) finds a group
    (member) at the first position of its ID in that list, and returns
    [errIndex] when its ID is not in the list. *)
Theorem index_in_built_keys_is_position_of_id
    (group : GroupModel) (groupMember : GroupMemberModel) (ids : list string) :
  let gkeys := appendKeys getGroupInfoKey ids in
  let mkeys := appendKeys (getGroupMemberInfoKey (MemberGroupID groupMember)) ids in
  (∀ n : nat, ids !! n = Some (GroupID group) →
     (∀ m, m < n → ids !! m ≠ Some (GroupID group)) →
     GetGroupIndex group gkeys = (Z.of_nat n, None))
  ∧ (GroupID group ∉ ids → GetGroupIndex group gkeys = (0%Z, Some errIndex))
  ∧ (∀ n : nat, ids !! n = Some (UserID groupMember) →
       (∀ m, m < n → ids !! m ≠ Some (UserID groupMember)) →
       GetGroupMemberIndex groupMember mkeys = (Z.of_nat n, None))
  ∧ (UserID groupMember ∉ ids →
       GetGroupMemberIndex groupMember mkeys = (0%Z, Some errIndex)).
Proof.
  intros gkeys mkeys. unfold gkeys, mkeys, GetGroupIndex, GetGroupMemberIndex.
  rewrite !appendKeys_map.
  rewrite (rangeIndex_fmap getGroupInfoKey)
    by (intros x; apply getGroupInfoKey_inj).
  rewrite (rangeIndex_fmap (getGroupMemberInfoKey (MemberGroupID groupMember)))
    by (intros x; apply getGroupMemberInfoKey_inj_user).
  repeat split.
  - intros n Hn Hfirst. by rewrite (rangeIndex_first _ _ n 0%Z Hn Hfirst).
  - intros Hout. apply (rangeIndex_None _ _ 0%Z) in Hout. by rewrite Hout.
  - intros n Hn Hfirst. by rewrite (rangeIndex_first _ _ n 0%Z Hn Hfirst).
  - intros Hout. apply (rangeIndex_None _ _ 0%Z) in Hout. by rewrite Hout.
Qed.

Lemma index_in_built_keys_is_position_of_id_witness :
  GetGroupIndex {| GroupID := "u3" |} (appendKeys getGroupInfoKey tenIDs)
  = (2%Z, None)
  ∧ GetGroupMemberIndex (memberOf "g" "zz")
      (appendKeys (getGroupMemberInfoKey "g") tenIDs)
    = (0%Z, Some errIndex).
Proof.
  destruct (index_in_built_keys_is_position_of_id {| GroupID := "u3" |}
              (memberOf "g" "zz") tenIDs) as (Hg & _ & _ & Hm).
  split.
  - apply (Hg 2); [reflexivity|].
    intros [|[|m]] Hm'; simpl; [discriminate | discriminate | lia].
  - apply Hm. apply (bool_decide_unpack ("zz" ∉ tenIDs)). exact I.
Defined.

(** ** Chains of invalidations *)

(** The run of a chain in this model of the accumulator. *)
Lemma chainDel_pending
    (g : GroupCacheRedis) (cs : list DelCall) (w : World) (P : list string) :
  pending (metaCache g) w = Some P →
  ∃ acc w',
    chainDel g cs w = (Ok acc, w')
    ∧ pending (metaCache acc) w' = Some (P ++ concat (delKeys <$> cs))
    ∧ (∀ m Q, pending m w = Some Q → pending m w' = Some Q)
    ∧ length (heap w') = length (heap w) + length cs
    ∧ redis w' = redis w.
Proof.
  revert g w P. induction cs as [|c rest IH]; intros g w P HP.
  - exists g, w. simpl. rewrite app_nil_r. repeat split; [done | done | lia].
  - assert (∃ mc, heap w !! metaCache g = Some mc ∧ keys mc = P) as (mc & Hg & Hk).
    { unfold pending in HP. destruct (heap w !! metaCache g) as [mc|]; [|done].
      exists mc. split; [done | by injection HP]. }
    cbn [chainDel]. unfold bind at 1. rewrite (callDel_run _ _ _ _ Hg), Hk.
    set (acc1 := derivedCache g (length (heap w))).
    set (w1 := allocated (rcClient g) (P ++ delKeys c) w).
    destruct (IH acc1 w1 (P ++ delKeys c)) as (acc & w' & Hrun & Hp & Hold & Hlen & Hr).
    { apply pending_allocated_new. }
    exists acc, w'. split; [exact Hrun|]. split.
    { rewrite Hp. simpl. by rewrite app_assoc. }
    split. { intros m Q Hm. apply Hold. by apply pending_allocated_old. }
    split. { rewrite Hlen. unfold w1, allocated; simpl. rewrite length_app; simpl. lia. }
    exact Hr.
Qed.

(** X6: a chain of any number of [Del*] calls on an instance with pending
    keys [P] returns one accumulator whose pending set is [P] together with
    the keys of every call of the chain, without touching the backend; the
    commit of that accumulator deletes exactly these keys. *)
Theorem del_chain_commit_deletes_union
    (g : GroupCacheRedis) (cs : list DelCall) (w : World) (P : list string) :
  pending (metaCache g) w = Some P →
  ∃ acc w' Q w'',
    chainDel g cs w = (Ok acc, w')
    ∧ pending (metaCache acc) w' = Some Q
    ∧ (∀ k, k ∈ Q ↔ k ∈ P ∨ ∃ c, c ∈ cs ∧ k ∈ delKeys c)
    ∧ redis w' = redis w
    ∧ ExecDel (metaCache acc) w' = (Ok tt, w'')
    ∧ (∀ k, k ∈ Q → redis w'' !! k = None)
    ∧ (∀ k, k ∉ Q → redis w'' !! k = redis w !! k).
Proof.
  intros HP.
  destruct (chainDel_pending g cs w P HP) as (acc & w' & Hrun & Hp & _ & _ & Hr).
  assert (∃ mc, heap w' !! metaCache acc = Some mc
                ∧ keys mc = P ++ concat (delKeys <$> cs)) as (mc & Hacc & Hk).
  { unfold pending in Hp. destruct (heap w' !! metaCache acc) as [mc|]; [|done].
    exists mc. split; [done | by injection Hp]. }
  eexists acc, w', _, _. split; [exact Hrun|]. split; [exact Hp|].
  split.
  { intros k. rewrite elem_of_app. split.
    - intros [Hin|Hin]; [by left | right].
      apply list_elem_of_In, in_concat in Hin as (ks & Hks & Hin).
      apply list_elem_of_In, list_elem_of_fmap in Hks as (c & -> & Hc).
      exists c. split; [done | by apply list_elem_of_In].
    - intros [Hin | (c & Hc & Hin)]; [by left | right].
      apply list_elem_of_In, in_concat. exists (delKeys c).
      split; apply list_elem_of_In; [by apply list_elem_of_fmap_2 | done]. }
  split; [exact Hr|]. split; [apply (ExecDel_run _ _ _ Hacc)|].
  simpl. rewrite Hk, Hr. split; intros k Hin; rewrite lookup_foldr_delete.
  - by rewrite bool_decide_eq_true_2.
  - by rewrite bool_decide_eq_false_2.
Qed.

Lemma del_chain_commit_deletes_union_witness :
  let stale := set_redis {["GROUP_MEMBER_IDS:g" := {| value := VStrings ["gone"];
                                                     ttl := groupExpireTime |}]}
                 sampleWorld in
  ∃ acc w' w'',
    chainDel sampleCache
      [CallDelGroupMemberIDs "g"; CallDelGroupMembersHash "g";
       CallDelGroupsMemberNum ["g"]; CallDelJoinedGroupID ["u1"; "u2"];
       CallDelGroupMembersInfo "g" ["u1"; "u2"]] stale = (Ok acc, w')
    ∧ is_Some (redis w' !! "GROUP_MEMBER_IDS:g")
    ∧ ExecDel (metaCache acc) w' = (Ok tt, w'')
    ∧ redis w'' !! "GROUP_MEMBER_IDS:g" = None
    ∧ redis w'' !! "JOIN_GROUPS_KEY:u2" = None.
Proof.
  intros stale.
  destruct (del_chain_commit_deletes_union sampleCache
              [CallDelGroupMemberIDs "g"; CallDelGroupMembersHash "g";
               CallDelGroupsMemberNum ["g"]; CallDelJoinedGroupID ["u1"; "u2"];
               CallDelGroupMembersInfo "g" ["u1"; "u2"]] stale [] eq_refl)
    as (acc & w' & Q & w'' & Hrun & _ & HQ & Hr & Hc & Hdel & _).
  exists acc, w', w''. split; [exact Hrun|]. split.
  { rewrite Hr. by eexists. }
  split; [exact Hc|]. split.
  - apply Hdel, HQ. right. exists (CallDelGroupMemberIDs "g").
    split; [left | left].
  - apply Hdel, HQ. right. exists (CallDelJoinedGroupID ["u1"; "u2"]).
    split; [do 3 right; left | right; left].
Defined.

(** ** Reading through an accumulator *)

Lemma derived_is_derivedCache g w acc w' :
  (NewCache g w = (Ok acc, w') ∨ ∃ c, callDel g c w = (Ok acc, w')) →
  acc = derivedCache g (length (heap w)).
Proof.
  intros Hd. destruct (heap w !! metaCache g) as [mc|] eqn:Hg.
  - destruct Hd as [Hd | [c Hd]].
    + rewrite (NewCache_run _ _ _ Hg) in Hd. by injection Hd as <- _.
    + rewrite (callDel_run _ _ _ _ Hg) in Hd. by injection Hd as <- _.
  - destruct Hd as [Hd | [c Hd]].
    + by rewrite (NewCache_nil _ _ Hg) in Hd.
    + by rewrite (callDel_nil _ _ _ Hg) in Hd.
Qed.

Lemma memberIDsLoop_derivedCache g n groupIDs m w :
  memberIDsLoop (derivedCache g n) groupIDs m w = memberIDsLoop g groupIDs m w.
Proof.
  revert m w. induction groupIDs as [|groupID rest IH]; intros m w; [done|].
  cbn [memberIDsLoop]. unfold bind.
  change (GetGroupMemberIDs (derivedCache g n) groupID w)
    with (GetGroupMemberIDs g groupID w).
  destruct (GetGroupMemberIDs g groupID w) as [[userIDs|e|] w1]; [|done..].
  apply IH.
Qed.

(** X7: the instance [NewCache] or a [Del*] method returns answers every
    read that does not go through the hash loader exactly as the instance it
    was made from does: in every world each of these methods returns the
    same value or error and leaves the same world on both instances, which
    share the client, the time-to-live and the stores. *)
Theorem accumulator_reads_as_its_origin
    (Paginate : list string → Z → Z → list string)
    (g acc : GroupCacheRedis) (w w' : World) (w2 : World) :
  (NewCache g w = (Ok acc, w') ∨ ∃ c, callDel g c w = (Ok acc, w')) →
  (∀ groupIDs, GetGroupsInfo acc groupIDs w2 = GetGroupsInfo g groupIDs w2)
  ∧ (∀ groupID, GetGroupInfo acc groupID w2 = GetGroupInfo g groupID w2)
  ∧ (∀ groupID, GetGroupMemberIDs acc groupID w2 = GetGroupMemberIDs g groupID w2)
  ∧ (∀ groupIDs,
       GetGroupsMemberIDs acc groupIDs w2 = GetGroupsMemberIDs g groupIDs w2)
  ∧ (∀ userID, GetJoinedGroupIDs acc userID w2 = GetJoinedGroupIDs g userID w2)
  ∧ (∀ groupID userID,
       GetGroupMemberInfo acc groupID userID w2
       = GetGroupMemberInfo g groupID userID w2)
  ∧ (∀ groupID userIDs,
       GetGroupMembersInfo acc groupID userIDs w2
       = GetGroupMembersInfo g groupID userIDs w2)
  ∧ (∀ groupID,
       GetAllGroupMembersInfo acc groupID w2 = GetAllGroupMembersInfo g groupID w2)
  ∧ (∀ groupID,
       GetAllGroupMemberInfo acc groupID w2 = GetAllGroupMemberInfo g groupID w2)
  ∧ (∀ groupID userIDs showNumber pageNumber,
       GetGroupMembersPage Paginate acc groupID userIDs showNumber pageNumber w2
       = GetGroupMembersPage Paginate g groupID userIDs showNumber pageNumber w2)
  ∧ (∀ groupID, GetGroupMemberNum acc groupID w2 = GetGroupMemberNum g groupID w2).
Proof.
  intros Hd. rewrite (derived_is_derivedCache _ _ _ _ Hd).
  repeat split; intros; try reflexivity.
  unfold GetGroupsMemberIDs. apply memberIDsLoop_derivedCache.
Qed.

(** The accumulator [DelGroupMemberIDs] returns answers the joined groups
    of "u1" and the member page as the sample cache does, with the values. *)
Lemma accumulator_reads_as_its_origin_witness :
  ∃ acc w',
    DelGroupMemberIDs sampleCache "g" sampleWorld = (Ok acc, w')
    ∧ GetJoinedGroupIDs acc "u1" w' = GetJoinedGroupIDs sampleCache "u1" w'
    ∧ (GetJoinedGroupIDs acc "u1" w').1 = Ok ["g"]
    ∧ GetGroupMembersPage specPage acc "g" None 3 1 w'
      = GetGroupMembersPage specPage sampleCache "g" None 3 1 w'.
Proof.
  eexists _, _. split; [reflexivity|].
  destruct (accumulator_reads_as_its_origin specPage sampleCache
              (derivedCache sampleCache 1) sampleWorld
              (allocated sampleClient ["GROUP_MEMBER_IDS:g"] sampleWorld)
              (allocated sampleClient ["GROUP_MEMBER_IDS:g"] sampleWorld)
              (or_intror (ex_intro _ (CallDelGroupMemberIDs "g") eq_refl)))
    as (_ & _ & _ & _ & Hj & _ & _ & _ & _ & Hp & _).
  split; [apply Hj|]. split; [reflexivity|]. apply Hp.
Defined.

(** ** What a read leaves behind *)














(** ** Invalidate, then read *)

Lemma delThenCommit_removes g c w P k :
  pending (metaCache g) w = Some P →
  k ∈ delKeys c →
  redis (delThenCommit g c w).2 !! k = None.
Proof.
  intros HP Hk.
  assert (∃ mc, heap w !! metaCache g = Some mc ∧ keys mc = P) as (mc & Hg & HkP).
  { unfold pending in HP. destruct (heap w !! metaCache g) as [mc|]; [|done].
    exists mc. split; [done | by injection HP]. }
  unfold delThenCommit, bind. rewrite (callDel_run _ _ _ _ Hg). simpl metaCache.
  erewrite ExecDel_run.
  2:{ unfold allocated; simpl. by rewrite lookup_app_r, Nat.sub_diag by lia. }
  simpl. rewrite lookup_foldr_delete.
  rewrite bool_decide_eq_true_2; [done|]. apply elem_of_app. by right.
Qed.

Lemma getCache_miss_fst {T} `{Codec T} rc key t (fn : unit → outcome T) w :
  redis w !! key = None → (getCache rc key t fn w).1 = fn tt.
Proof.
  intros Hk. rewrite (getCache_miss _ _ _ _ _ Hk). by destruct (fn tt).
Qed.

(** X9: each [Del*] method invalidates the key its read counterpart uses:
    after the call and the commit of the accumulator it returned, the read
    of any entity the call named answers what the store (or the hash
    loader) answers now, whatever the cache held before. *)
Theorem commit_then_read_reloads_from_store
    (g : GroupCacheRedis) (w : World) (P : list string) :
  pending (metaCache g) w = Some P →
  (∀ groupIDs groupID, groupID ∈ groupIDs →
     (GetGroupInfo g groupID (delThenCommit g (CallDelGroupsInfo groupIDs) w).2).1
     = of_result (GroupTake (groupDB g) groupID))
  ∧ (∀ groupID,
       (GetGroupMembersHash g groupID
          (delThenCommit g (CallDelGroupMembersHash groupID) w).2).1
       = match hashCode g with
         | Some f => of_result (f groupID)
         | None => Panic
         end)
  ∧ (∀ groupID,
       (GetGroupMemberIDs g groupID
          (delThenCommit g (CallDelGroupMemberIDs groupID) w).2).1
       = of_result (FindMemberUserID (groupMemberDB g) groupID))
  ∧ (∀ userIDs userID, userID ∈ userIDs →
       (GetJoinedGroupIDs g userID
          (delThenCommit g (CallDelJoinedGroupID userIDs) w).2).1
       = of_result (FindUserJoinedGroupID (groupMemberDB g) userID))
  ∧ (∀ groupID userIDs userID, userID ∈ userIDs →
       (GetGroupMemberInfo g groupID userID
          (delThenCommit g (CallDelGroupMembersInfo groupID userIDs) w).2).1
       = of_result (Take (groupMemberDB g) groupID userID))
  ∧ (∀ groupIDs groupID, groupID ∈ groupIDs →
       (GetGroupMemberNum g groupID
          (delThenCommit g (CallDelGroupsMemberNum groupIDs) w).2).1
       = of_result (TakeGroupMemberNum (groupMemberDB g) groupID)).
Proof.
  intros HP. repeat split; intros;
    (apply getCache_miss_fst; eapply delThenCommit_removes; [exact HP|]; simpl).
  - by apply list_elem_of_fmap_2.
  - left.
  - left.
  - by apply list_elem_of_fmap_2.
  - by apply (list_elem_of_fmap_2 (getGroupMemberInfoKey groupID)).
  - by apply list_elem_of_fmap_2.
Qed.

(** A stale list of members is cached for "g"; after [DelGroupMemberIDs]
    and the commit the read answers the store's ten members. *)
Lemma commit_then_read_reloads_from_store_witness :
  let stale := set_redis {["GROUP_MEMBER_IDS:g" := {| value := VStrings ["gone"];
                                                     ttl := groupExpireTime |}]}
                 sampleWorld in
  (GetGroupMemberIDs sampleCache "g" stale).1 = Ok ["gone"]
  ∧ (GetGroupMemberIDs sampleCache "g"
       (delThenCommit sampleCache (CallDelGroupMemberIDs "g") stale).2).1
    = Ok tenIDs.
Proof.
  intros stale. split; [reflexivity|].
  destruct (commit_then_read_reloads_from_store sampleCache stale [] eq_refl)
    as (_ & _ & Hids & _).
  by rewrite Hids.
Defined.

(** ** What is cached is served *)

Lemma getCache_served {T} `{Codec T}
    rc key t (fn : unit → outcome T) w v w1 rc' t' (fn' : unit → outcome T) :
  getCache rc key t fn w = (Ok v, w1) →
  (∀ v : T, decode (encode v) = Some v) →
  getCache rc' key t' fn' w1 = (Ok v, w1).
Proof.
  intros Hread Hrt. revert Hread.
  unfold getCache. destruct (redis w !! key) as [e0|] eqn:Hk.
  - destruct (decode (value e0)) as [v0|] eqn:Hd; [|done].
    intros [= <- <-]. by rewrite Hk, Hd.
  - destruct (fn tt) as [v0|err|]; [|done..].
    intros [= <- <-]. simpl. by rewrite lookup_insert_eq; simpl; rewrite Hrt.
Qed.

(** X10: a value a read returned is served to every later read of the same
    key from the cache alone, whichever instance asks: the same value comes
    back, the world does not change, and neither the store nor the hash
    loader of the asking instance is consulted (an accumulator with a nil
    hash loader reads a cached hash without panicking). *)
Theorem cached_value_served_without_loader (g g' : GroupCacheRedis) (w w1 : World) :
  (∀ groupID v, GetGroupInfo g groupID w = (Ok v, w1) →
                GetGroupInfo g' groupID w1 = (Ok v, w1))
  ∧ (∀ groupID v, GetGroupMembersHash g groupID w = (Ok v, w1) →
                  GetGroupMembersHash g' groupID w1 = (Ok v, w1))
  ∧ (∀ groupID v, GetGroupMemberIDs g groupID w = (Ok v, w1) →
                  GetGroupMemberIDs g' groupID w1 = (Ok v, w1))
  ∧ (∀ userID v, GetJoinedGroupIDs g userID w = (Ok v, w1) →
                 GetJoinedGroupIDs g' userID w1 = (Ok v, w1))
  ∧ (∀ groupID userID v, GetGroupMemberInfo g groupID userID w = (Ok v, w1) →
                         GetGroupMemberInfo g' groupID userID w1 = (Ok v, w1))
  ∧ (∀ groupID v, GetGroupMemberNum g groupID w = (Ok v, w1) →
                  GetGroupMemberNum g' groupID w1 = (Ok v, w1)).
Proof.
  unfold GetGroupInfo, GetGroupMembersHash, GetGroupMemberIDs,
         GetJoinedGroupIDs, GetGroupMemberInfo, GetGroupMemberNum.
  repeat split; intros;
    match goal with
    | Hread : _ = (Ok _, _) |- _ =>
        exact (getCache_served _ _ _ _ _ _ _ _ _ _ Hread (λ _, eq_refl))
    end.
Qed.

Lemma cached_value_served_without_loader_witness :
  ∃ acc w' w1,
    DelGroupMemberIDs sampleCache "g" sampleWorld = (Ok acc, w')
    ∧ GetGroupMembersHash acc "g" w' = (Panic, w')
    ∧ GetGroupMembersHash sampleCache "g" w' = (Ok 42%Z, w1)
    ∧ GetGroupMembersHash acc "g" w1 = (Ok 42%Z, w1).
Proof.
  eexists _, _, _. split; [reflexivity|]. split; [reflexivity|].
  split; [reflexivity|].
  destruct (cached_value_served_without_loader sampleCache
              (derivedCache sampleCache 1)
              (allocated sampleClient ["GROUP_MEMBER_IDS:g"] sampleWorld)
              (GetGroupMembersHash sampleCache "g"
                 (allocated sampleClient ["GROUP_MEMBER_IDS:g"] sampleWorld)).2)
    as (_ & Hhash & _).
  apply Hhash. reflexivity.
Defined.

(** X11: two member pairs whose keys collide share one cache entry: once
    the record of group [a-b], user [c] has been read, a read of group [a],
    user [b-c] is answered with that record, of the other group, and the
    store is not asked. *)
Theorem colliding_member_pairs_share_entry
    (g g' : GroupCacheRedis) (a b c : string) (w w1 : World) (m : GroupMemberModel) :
  GetGroupMemberInfo g (a +:+ "-" +:+ b) c w = (Ok m, w1) →
  GetGroupMemberInfo g' a (b +:+ "-" +:+ c) w1 = (Ok m, w1).
Proof.
  intros Hfirst. unfold GetGroupMemberInfo in *.
  rewrite <- (member_key_dash_shift a b c).
  exact (getCache_served _ _ _ _ _ _ _ _ _ _ Hfirst (λ _, eq_refl)).
Qed.

Lemma colliding_member_pairs_share_entry_witness :
  ∃ w1,
    GetGroupMemberInfo (cacheOver openMemberDB) "t-1" "x" sampleWorld
    = (Ok (memberOf "t-1" "x"), w1)
    ∧ GetGroupMemberInfo (cacheOver openMemberDB) "t" "1-x" w1
      = (Ok (memberOf "t-1" "x"), w1)
    ∧ Take openMemberDB "t" "1-x" = Okay (memberOf "t" "1-x").
Proof.
  eexists. split; [reflexivity|]. split; [|reflexivity].
  apply (colliding_member_pairs_share_entry (cacheOver openMemberDB)
           (cacheOver openMemberDB) "t" "1" "x" sampleWorld).
  reflexivity.
Defined.

(** ** Batch reads against single reads *)

Lemma getCache_after_same {T} `{Codec T} rc k t (fn : unit → outcome T) w
    rc' k' t' (fn' : unit → outcome T) :
  (∀ v : T, decode (encode v) = Some v) →
  (k' = k → fn' tt = fn tt) →
  (getCache rc' k' t' fn' (getCache rc k t fn w).2).1
  = (getCache rc' k' t' fn' w).1.
Proof.
  intros Hrt Hsame. unfold getCache at 2.
  destruct (redis w !! k) as [e0|] eqn:Hk.
  - by destruct (decode (value e0)).
  - destruct (fn tt) as [v|err|] eqn:Hfn; simpl; [|done..].
    unfold getCache; simpl. destruct (decide (k' = k)) as [->|Hne].
    + rewrite lookup_insert_eq, Hk; simpl. by rewrite Hrt, (Hsame eq_refl).
    + rewrite lookup_insert_ne by congruence.
      destruct (redis w !! k') as [e1|]; [by destruct (decode (value e1))|].
      by destruct (fn' tt).
Qed.

Lemma getCache_after_other {T1 T2} `{Codec T1} `{Codec T2}
    rc k t (fn : unit → outcome T1) w rc' k' t' (fn' : unit → outcome T2) :
  k' ≠ k →
  (getCache rc' k' t' fn' (getCache rc k t fn w).2).1
  = (getCache rc' k' t' fn' w).1.
Proof.
  intros Hne. unfold getCache at 2.
  destruct (redis w !! k) as [e0|] eqn:Hk.
  - by destruct (decode (value e0)).
  - destruct (fn tt) as [v|err|] eqn:Hfn; simpl; [|done..].
    unfold getCache; simpl. rewrite lookup_insert_ne by congruence.
    destruct (redis w !! k') as [e1|]; [by destruct (decode (value e1))|].
    by destruct (fn' tt).
Qed.

Lemma getCache_err_world {T} `{Codec T} rc k t (fn : unit → outcome T) w e w1 :
  getCache rc k t fn w = (Err e, w1) → w1 = w.
Proof.
  unfold getCache. destruct (redis w !! k) as [e0|].
  - destruct (decode (value e0)); by intros [= _ <-].
  - destruct (fn tt); by intros [= _ <-].
Qed.

Lemma getCache_of_result_no_panic {T} `{Codec T} rc k t (r : result T) w :
  (getCache rc k t (λ _, of_result r) w).1 ≠ Panic.
Proof.
  unfold getCache. destruct (redis w !! k) as [e0|].
  - by destruct (decode (value e0)).
  - by destruct r.
Qed.

Lemma omap_ext_pointwise {A B} (f h : A → option B) (l : list A) :
  (∀ x, f x = h x) → omap f l = omap h l.
Proof.
  intros Hfh. induction l as [|x l IH]; [done|].
  cbn [omap list_omap]. by rewrite Hfh, IH.
Qed.

(** The batch get-or-load, by what the single get-or-load of each
    identifier returns in the world the batch starts in. *)
Lemma batchGetCache2_spec {T} `{Codec T} rc t keyFn (fns : string → outcome T) ids :
  (∀ v : T, decode (encode v) = Some v) →
  (∀ a b, keyFn a = keyFn b → a = b) →
  ∀ w,
    match (batchGetCache2 rc t ids keyFn fns w).1 with
    | Ok vs =>
        vs = omap (λ id, found (getCache rc (keyFn id) t (λ _, fns id) w).1) ids
        ∧ Forall (λ id, passes (getCache rc (keyFn id) t (λ _, fns id) w).1) ids
    | Err e =>
        e ≠ ErrRecordNotFound
        ∧ ∃ id, id ∈ ids ∧ (getCache rc (keyFn id) t (λ _, fns id) w).1 = Err e
    | Panic =>
        ∃ id, id ∈ ids ∧ (getCache rc (keyFn id) t (λ _, fns id) w).1 = Panic
    end.
Proof.
  intros Hrt Hinj. induction ids as [|a rest IH]; intros w.
  - simpl. split; [done | constructor].
  - cbn [batchGetCache2]. unfold bind at 1, attempt.
    assert (Hback : ∀ id,
      (getCache rc (keyFn id) t (λ _, fns id)
         (getCache rc (keyFn a) t (λ _, fns a) w).2).1
      = (getCache rc (keyFn id) t (λ _, fns id) w).1).
    { intros id. apply getCache_after_same; [done|].
      by intros ->%Hinj. }
    specialize (IH (getCache rc (keyFn a) t (λ _, fns a) w).2).
    destruct (getCache rc (keyFn a) t (λ _, fns a) w) as [[v|e|] w1] eqn:Ha;
      simpl in *.
    + unfold bind.
      destruct (batchGetCache2 rc t rest keyFn fns w1) as [[vs|e|] w2]; simpl in *.
      * destruct IH as [-> Hall]. split.
        -- rewrite (omap_ext_pointwise _
                      (λ id, found (getCache rc (keyFn id) t (λ _, fns id) w).1))
             by (intros id; by rewrite Hback).
           cbn [omap list_omap]. by rewrite Ha.
        -- constructor; [by rewrite Ha|].
           eapply Forall_impl; [exact Hall|]. intros id Hid. by rewrite <- Hback.
      * destruct IH as (Hne & id & Hin & Hid). split; [done|].
        exists id. split; [by right | by rewrite <- Hback].
      * destruct IH as (id & Hin & Hid).
        exists id. split; [by right | by rewrite <- Hback].
    + destruct e as [| |msg]; simpl.
      * split; [done|]. exists a. split; [left | by rewrite Ha].
      * destruct (batchGetCache2 rc t rest keyFn fns w1) as [[vs|e|] w2]; simpl in *.
        -- destruct IH as [-> Hall]. split.
           ++ rewrite (omap_ext_pointwise _
                         (λ id, found (getCache rc (keyFn id) t (λ _, fns id) w).1))
                by (intros id; by rewrite Hback).
              cbn [omap list_omap]. by rewrite Ha.
           ++ constructor; [by rewrite Ha|].
              eapply Forall_impl; [exact Hall|]. intros id Hid. by rewrite <- Hback.
        -- destruct IH as (Hne & id & Hin & Hid). split; [done|].
           exists id. split; [by right | by rewrite <- Hback].
        -- destruct IH as (id & Hin & Hid).
           exists id. split; [by right | by rewrite <- Hback].
      * split; [done|]. exists a. split; [left | by rewrite Ha].
    + exists a. split; [left | by rewrite Ha].
Qed.

Lemma GetGroupMembersInfo_spec g groupID userIDs w :
  match (GetGroupMembersInfo g groupID userIDs w).1 with
  | Ok groupMembers =>
      groupMembers
      = omap (λ userID, found (GetGroupMemberInfo g groupID userID w).1) userIDs
      ∧ Forall (λ userID, passes (GetGroupMemberInfo g groupID userID w).1) userIDs
  | Err e =>
      e ≠ ErrRecordNotFound
      ∧ ∃ userID, userID ∈ userIDs
                  ∧ (GetGroupMemberInfo g groupID userID w).1 = Err e
  | Panic => False
  end.
Proof.
  unfold GetGroupMembersInfo, GetGroupMemberInfo.
  pose proof (batchGetCache2_spec (rcClient g) (expireTime g)
                (λ userID, getGroupMemberInfoKey groupID userID)
                (λ userID, of_result (Take (groupMemberDB g) groupID userID))
                userIDs (λ _, eq_refl)
                (getGroupMemberInfoKey_inj_user groupID) w) as Hspec.
  destruct (batchGetCache2 _ _ userIDs _ _ w) as [[ms|e|] w1]; simpl in *;
    [done | done |].
  destruct Hspec as (userID & _ & Hp).
  by apply getCache_of_result_no_panic in Hp.
Qed.

Lemma GetGroupMembersInfo_no_panic g groupID userIDs w :
  (GetGroupMembersInfo g groupID userIDs w).1 ≠ Panic.
Proof.
  pose proof (GetGroupMembersInfo_spec g groupID userIDs w) as Hspec.
  intros Hp. by rewrite Hp in Hspec.
Qed.

(** X12: [GetGroupMembersInfo] returns, in the order of the user IDs it was
    given, the record [GetGroupMemberInfo] finds for each, leaving out the
    users the store has no record of; it fails exactly with an error other
    than not-found that the lookup of one of the users fails with; it does
    not panic. *)
Theorem GetGroupMembersInfo_collects_single_reads
    (g : GroupCacheRedis) (groupID : string) (userIDs : list string) (w : World) :
  match (GetGroupMembersInfo g groupID userIDs w).1 with
  | Ok groupMembers =>
      groupMembers
      = omap (λ userID, found (GetGroupMemberInfo g groupID userID w).1) userIDs
      ∧ Forall (λ userID, passes (GetGroupMemberInfo g groupID userID w).1) userIDs
  | Err e =>
      e ≠ ErrRecordNotFound
      ∧ ∃ userID, userID ∈ userIDs
                  ∧ (GetGroupMemberInfo g groupID userID w).1 = Err e
  | Panic => False
  end.
Proof. apply GetGroupMembersInfo_spec. Qed.

(** Of "u2", "zz", "u1" the sample store has no "zz": the batch returns the
    records of "u2" and "u1", in that order; a lookup that times out fails
    the batch. *)
Example GetGroupMembersInfo_sample :
  (GetGroupMembersInfo sampleCache "g" ["u2"; "zz"; "u1"] sampleWorld).1
  = Ok [memberOf "g" "u2"; memberOf "g" "u1"]
  ∧ (GetGroupMembersInfo (cacheOver timeoutMemberDB) "g" ["x"; "y"] sampleWorld).1
    = Err (ErrOther "timeout").
Proof. split; reflexivity. Qed.

(** X13: [GetGroupsInfo] returns, in the order of the group IDs it was
    given, the record [GetGroupInfo] finds for each, leaving out the groups
    the store does not have; it fails exactly with an error other than
    not-found that the lookup of one of the groups fails with; it does not
    panic. *)
Theorem GetGroupsInfo_collects_single_reads
    (g : GroupCacheRedis) (groupIDs : list string) (w : World) :
  match (GetGroupsInfo g groupIDs w).1 with
  | Ok groups =>
      groups = omap (λ groupID, found (GetGroupInfo g groupID w).1) groupIDs
      ∧ Forall (λ groupID, passes (GetGroupInfo g groupID w).1) groupIDs
  | Err e =>
      e ≠ ErrRecordNotFound
      ∧ ∃ groupID, groupID ∈ groupIDs ∧ (GetGroupInfo g groupID w).1 = Err e
  | Panic => False
  end.
Proof.
  unfold GetGroupsInfo, GetGroupInfo.
  pose proof (batchGetCache2_spec (rcClient g) (expireTime g)
                (λ groupID, getGroupInfoKey groupID)
                (λ groupID, of_result (GroupTake (groupDB g) groupID))
                groupIDs (λ _, eq_refl) getGroupInfoKey_inj w) as Hspec.
  destruct (batchGetCache2 _ _ groupIDs _ _ w) as [[gs|e|] w1]; simpl in *;
    [done | done |].
  destruct Hspec as (groupID & _ & Hp).
  by apply getCache_of_result_no_panic in Hp.
Qed.

(** ** The page method, in every case *)

Lemma uint32_range z : (0 ≤ uint32 z < 2 ^ 32)%Z.
Proof. unfold uint32. apply Z.mod_pos_bound. lia. Qed.

(** X14: [GetGroupMembersPage] always returns its three values and never
    panics, also on an accumulator without hash loader.  The total is below
    2^32; members come back only with a nil error; when the member-ID lookup
    fails the result is total 0 with that error and the world is untouched;
    when it succeeds the total is the number of candidates (as uint32),
    also when loading the members then fails. *)
Theorem GetGroupMembersPage_always_returns
    (Paginate : list string → Z → Z → list string)
    (g : GroupCacheRedis) (groupID : string) (userIDs : option (list string))
    (showNumber pageNumber : Z) (w : World) :
  ∃ total groupMembers err w',
    GetGroupMembersPage Paginate g groupID userIDs showNumber pageNumber w
    = (Ok (total, groupMembers, err), w')
    ∧ (0 ≤ total < 2 ^ 32)%Z
    ∧ (err ≠ None → groupMembers = [])
    ∧ (∀ e, (GetGroupMemberIDs g groupID w).1 = Err e →
            total = 0%Z ∧ err = Some e ∧ w' = w)
    ∧ (∀ ids, (GetGroupMemberIDs g groupID w).1 = Ok ids →
              total = uint32 (Z.of_nat (length (candidateIDs userIDs ids)))).
Proof.
  destruct (GetGroupMemberIDs g groupID w) as [[ids|e|] w1] eqn:Hids.
  - rewrite (GetGroupMembersPage_run _ _ _ _ _ _ _ _ _ Hids). simpl.
    pose proof (GetGroupMembersInfo_no_panic g groupID
                  (Paginate (candidateIDs userIDs ids) showNumber showNumber) w1)
      as Hnp.
    destruct (GetGroupMembersInfo g groupID _ w1) as [[ms|e|] w2]; simpl in *.
    + eexists _, _, _, _. split; [reflexivity|].
      split; [apply uint32_range|]. split; [done|]. split; [done|].
      by intros ids' [= <-].
    + eexists _, _, _, _. split; [reflexivity|].
      split; [apply uint32_range|]. split; [done|]. split; [done|].
      by intros ids' [= <-].
    + done.
  - unfold GetGroupMembersPage, bind, attempt. rewrite Hids. simpl.
    eexists _, _, _, _. split; [reflexivity|].
    split; [done|]. split; [done|]. split; [|done].
    intros e' [= <-]. split; [done|]. split; [done|].
    unfold GetGroupMemberIDs in Hids. by apply getCache_err_world in Hids.
  - unfold GetGroupMemberIDs in Hids.
    pose proof (getCache_of_result_no_panic (rcClient g)
                  (getGroupMemberIDsKey groupID) (expireTime g)
                  (FindMemberUserID (groupMemberDB g) groupID) w) as Hnp.
    by rewrite Hids in Hnp.
Qed.

(** The store lists "x" and "y" but the lookup of "y" times out: the page
    reports total 2 with the error and no member; for the group whose ID
    lookup fails it reports total 0. *)
Example GetGroupMembersPage_error_sample :
  (GetGroupMembersPage (λ es _ _, es) (cacheOver timeoutMemberDB) "t" None 2 0
     sampleWorld).1
  = Ok (2%Z, [], Some (ErrOther "timeout"))
  ∧ GetGroupMembersPage specPage sampleCache "down" None 3 0 sampleWorld
    = (Ok (0%Z, [], Some (ErrOther "store unavailable")), sampleWorld).
Proof. split; reflexivity. Qed.

(** ** Member IDs of several groups, and all members of one *)

Lemma ids_after_ids g a b w :
  (GetGroupMemberIDs g b (GetGroupMemberIDs g a w).2).1
  = (GetGroupMemberIDs g b w).1.
Proof.
  apply getCache_after_same; [done|]. by intros ->%getGroupMemberIDsKey_inj.
Qed.

Lemma GetGroupMemberIDs_no_panic g a w : (GetGroupMemberIDs g a w).1 ≠ Panic.
Proof. apply getCache_of_result_no_panic. Qed.

Lemma memberIDsLoop_spec g groupIDs :
  ∀ m0 w,
    match (memberIDsLoop g groupIDs m0 w).1 with
    | Ok m =>
        ∀ groupID,
          (groupID ∈ groupIDs →
             ∃ userIDs, (GetGroupMemberIDs g groupID w).1 = Ok userIDs
                        ∧ m !! groupID = Some userIDs)
          ∧ (groupID ∉ groupIDs → m !! groupID = m0 !! groupID)
    | Err e =>
        ∃ groupID, groupID ∈ groupIDs ∧ (GetGroupMemberIDs g groupID w).1 = Err e
    | Panic => False
    end.
Proof.
  induction groupIDs as [|a rest IH]; intros m0 w.
  - simpl. intros groupID. split; [by intros ?%elem_of_nil | done].
  - cbn [memberIDsLoop]. unfold bind at 1.
    pose proof (λ b, ids_after_ids g a b w) as Hback.
    pose proof (GetGroupMemberIDs_no_panic g a w) as Hnp.
    destruct (GetGroupMemberIDs g a w) as [[us|e|] w1] eqn:Ha; simpl in *.
    2:{ exists a. split; [left | by rewrite Ha]. }
    2:{ done. }
    specialize (IH (<[a := us]> m0) w1).
    destruct (memberIDsLoop g rest _ w1) as [[m|e|] w2]; simpl in *; [| |done].
    + intros groupID. destruct (IH groupID) as [Hin Hout]. split.
      * intros Hmem. destruct (decide (groupID ∈ rest)) as [Hr|Hr].
        -- destruct (Hin Hr) as (us' & Hus' & Hm). exists us'.
           by rewrite <- Hback.
        -- apply elem_of_cons in Hmem as [->|Hmem]; [|done].
           exists us. rewrite Ha; simpl. split; [done|].
           rewrite (Hout Hr). apply lookup_insert_eq.
      * intros [Hne Hr]%not_elem_of_cons. rewrite (Hout Hr).
        by rewrite lookup_insert_ne.
    + destruct IH as (groupID & Hmem & Hfail). exists groupID.
      split; [by right | by rewrite <- Hback].
Qed.

(** X15: when [GetGroupsMemberIDs] returns a map, its keys are exactly the
    given group IDs and each holds the member IDs [GetGroupMemberIDs]
    returns for that group; otherwise it returns the error the lookup of one
    of the groups fails with, and no map; it does not panic. *)
Theorem GetGroupsMemberIDs_lists_or_fails
    (g : GroupCacheRedis) (groupIDs : list string) (w : World) :
  match (GetGroupsMemberIDs g groupIDs w).1 with
  | Ok m =>
      ∀ groupID,
        (groupID ∈ groupIDs →
           ∃ userIDs, (GetGroupMemberIDs g groupID w).1 = Ok userIDs
                      ∧ m !! groupID = Some userIDs)
        ∧ (groupID ∉ groupIDs → m !! groupID = None)
  | Err e =>
      ∃ groupID, groupID ∈ groupIDs ∧ (GetGroupMemberIDs g groupID w).1 = Err e
  | Panic => False
  end.
Proof.
  unfold GetGroupsMemberIDs.
  pose proof (memberIDsLoop_spec g groupIDs ∅ w) as Hspec.
  destruct (memberIDsLoop g groupIDs ∅ w) as [[m|e|] w1]; simpl in *; [|done..].
  intros groupID. destruct (Hspec groupID) as [Hin Hout].
  split; [done|]. intros Hr. by rewrite (Hout Hr).
Qed.

Example GetGroupsMemberIDs_sample :
  (∃ m, (GetGroupsMemberIDs sampleCache ["g"; "h"] sampleWorld).1 = Ok m
        ∧ m !! "g" = Some tenIDs ∧ m !! "h" = Some [])
  ∧ (GetGroupsMemberIDs sampleCache ["g"; "down"; "h"] sampleWorld).1
    = Err (ErrOther "store unavailable").
Proof. split; [by eexists | reflexivity]. Qed.

Lemma member_after_ids g groupID a userID w :
  (GetGroupMemberInfo g groupID userID (GetGroupMemberIDs g a w).2).1
  = (GetGroupMemberInfo g groupID userID w).1.
Proof.
  apply getCache_after_other.
  unfold getGroupMemberInfoKey, groupMemberInfoKey,
         getGroupMemberIDsKey, groupMemberIDsKey.
  intros Heq. simplify_eq/=.
Qed.

(** X16: [GetAllGroupMembersInfo] returns the records of the group's cached
    member IDs, in their order, leaving out the members the store has no
    record of; when the member-ID lookup fails it returns that error and
    leaves the world as it was; otherwise it fails only with an error other
    than not-found that the lookup of one of the members fails with;
    [GetAllGroupMemberInfo] does the same. *)
Theorem GetAllGroupMembersInfo_collects_cached_members
    (g : GroupCacheRedis) (groupID : string) (w : World) :
  GetAllGroupMemberInfo g groupID w = GetAllGroupMembersInfo g groupID w
  ∧ match (GetGroupMemberIDs g groupID w).1 with
    | Ok groupMemberIDs =>
        match (GetAllGroupMembersInfo g groupID w).1 with
        | Ok groupMembers =>
            groupMembers
            = omap (λ userID, found (GetGroupMemberInfo g groupID userID w).1)
                groupMemberIDs
        | Err e =>
            e ≠ ErrRecordNotFound
            ∧ ∃ userID, userID ∈ groupMemberIDs
                        ∧ (GetGroupMemberInfo g groupID userID w).1 = Err e
        | Panic => False
        end
    | Err e => GetAllGroupMembersInfo g groupID w = (Err e, w)
    | Panic => False
    end.
Proof.
  split; [reflexivity|].
  unfold GetAllGroupMembersInfo, bind.
  pose proof (λ userID, member_after_ids g groupID groupID userID w) as Hback.
  pose proof (GetGroupMemberIDs_no_panic g groupID w) as Hnp.
  destruct (GetGroupMemberIDs g groupID w) as [[ids|e|] w1] eqn:Hids; simpl in *.
  - pose proof (GetGroupMembersInfo_spec g groupID ids w1) as Hspec.
    destruct (GetGroupMembersInfo g groupID ids w1) as [[ms|e|] w2]; simpl in *.
    + destruct Hspec as [-> _]. apply omap_ext_pointwise.
      intros userID. by rewrite Hback.
    + destruct Hspec as (Hne & userID & Hin & Hfail). split; [done|].
      exists userID. split; [done | by rewrite <- Hback].
    + done.
  - unfold GetGroupMemberIDs in Hids. by apply getCache_err_world in Hids as ->.
  - done.
Qed.

Example GetAllGroupMembersInfo_sample :
  (GetAllGroupMembersInfo sampleCache "g" sampleWorld).1 = Ok (memberOf "g" <$> tenIDs)
  ∧ GetAllGroupMembersInfo sampleCache "down" sampleWorld
    = (Err (ErrOther "store unavailable"), sampleWorld).
Proof. split; reflexivity. Qed.

(** X17: the members a page returns are the records [GetGroupMemberInfo]
    finds for the IDs [Paginate] picks from the candidates when given
    [showNumber] both as page number and as page size, in that order,
    without those the store has no record of. *)
Theorem GetGroupMembersPage_members_of_the_page
    (Paginate : list string → Z → Z → list string)
    (g : GroupCacheRedis) (groupID : string) (userIDs : option (list string))
    (showNumber pageNumber : Z) (w w1 w2 : World)
    (groupMemberIDs : list string) (total : Z) (groupMembers : list GroupMemberModel) :
  GetGroupMemberIDs g groupID w = (Ok groupMemberIDs, w1) →
  GetGroupMembersPage Paginate g groupID userIDs showNumber pageNumber w
  = (Ok (total, groupMembers, None), w2) →
  groupMembers
  = omap (λ userID, found (GetGroupMemberInfo g groupID userID w).1)
      (Paginate (candidateIDs userIDs groupMemberIDs) showNumber showNumber).
Proof.
  intros Hids Hpage.
  rewrite (GetGroupMembersPage_run _ _ _ _ _ _ _ _ _ Hids) in Hpage.
  simpl in Hpage.
  pose proof (GetGroupMembersInfo_spec g groupID
                (Paginate (candidateIDs userIDs groupMemberIDs) showNumber showNumber)
                w1) as Hspec.
  destruct (GetGroupMembersInfo g groupID _ w1) as [[ms|e|] w3]; simpl in *;
    [|done..].
  injection Hpage as _ <- _. destruct Hspec as [-> _].
  apply omap_ext_pointwise. intros userID.
  pose proof (member_after_ids g groupID groupID userID w) as Hback.
  rewrite Hids in Hback. simpl in Hback. by rewrite Hback.
Qed.

Lemma GetGroupMembersPage_members_of_the_page_witness :
  ∃ w2,
    GetGroupMembersPage specPage sampleCache "g" None 3 1 sampleWorld
    = (Ok (10%Z, [memberOf "g" "u10"], None), w2)
    ∧ [memberOf "g" "u10"]
      = omap (λ userID, found (GetGroupMemberInfo sampleCache "g" userID sampleWorld).1)
          (specPage tenIDs 3 3).
Proof.
  exists (GetGroupMembersPage specPage sampleCache "g" None 3 1 sampleWorld).2.
  assert (Hpage : GetGroupMembersPage specPage sampleCache "g" None 3 1 sampleWorld
                  = (Ok (10%Z, [memberOf "g" "u10"], None),
                     (GetGroupMembersPage specPage sampleCache "g" None 3 1
                        sampleWorld).2))
    by (vm_compute; reflexivity).
  split; [exact Hpage|].
  apply (GetGroupMembersPage_members_of_the_page specPage sampleCache "g" None
           3 1 sampleWorld (GetGroupMemberIDs sampleCache "g" sampleWorld).2 _
           tenIDs 10 _ eq_refl Hpage).
Defined.

(** ** Reads between an invalidation and its commit *)

Lemma heap_blind_ret {A} (a : A) : heap_blind (ret a).
Proof. by intros w h. Qed.

Lemma heap_blind_fail {A} e : heap_blind (@fail A e).
Proof. by intros w h. Qed.

Lemma heap_blind_bind {A B} (c : M A) (k : A → M B) :
  heap_blind c → (∀ a, heap_blind (k a)) → heap_blind (bind c k).
Proof.
  intros Hc Hk w h. unfold bind. rewrite Hc.
  destruct (c w) as [[a|e|] w1]; simpl; [apply Hk | done | done].
Qed.

Lemma heap_blind_attempt {A} (c : M A) : heap_blind c → heap_blind (attempt c).
Proof.
  intros Hc w h. unfold attempt. rewrite Hc.
  by destruct (c w) as [[a|e|] w1].
Qed.

Lemma heap_blind_discard {A} (c : M A) : heap_blind c → heap_blind (discard c).
Proof.
  intros Hc. apply heap_blind_bind; [done|]. intros a. apply heap_blind_ret.
Qed.

Lemma heap_blind_getCache {T} `{Codec T} rc key t (fn : unit → outcome T) :
  heap_blind (getCache rc key t fn).
Proof.
  intros w h. unfold getCache. simpl.
  destruct (redis w !! key) as [e0|].
  - by destruct (decode (value e0)).
  - by destruct (fn tt).
Qed.

Lemma heap_blind_batchGetCache2 {T} `{Codec T} rc t ids keyFn
    (fns : string → outcome T) :
  heap_blind (batchGetCache2 rc t ids keyFn fns).
Proof.
  induction ids as [|id rest IH]; simpl; [apply heap_blind_ret|].
  apply heap_blind_bind.
  - apply heap_blind_attempt, heap_blind_getCache.
  - intros [v|e].
    + apply heap_blind_bind; [done|]. intros vs. apply heap_blind_ret.
    + destruct e; [apply heap_blind_fail | done | apply heap_blind_fail].
Qed.

Lemma heap_blind_hashMapLoop g groupIDs res : heap_blind (hashMapLoop g groupIDs res).
Proof.
  revert res. induction groupIDs as [|groupID rest IH]; intros res; simpl.
  - apply heap_blind_ret.
  - apply heap_blind_bind; [apply heap_blind_getCache|]. intros hash.
    apply heap_blind_bind; [apply heap_blind_getCache|]. intros num. apply IH.
Qed.

Lemma heap_blind_memberIDsLoop g groupIDs m : heap_blind (memberIDsLoop g groupIDs m).
Proof.
  revert m. induction groupIDs as [|groupID rest IH]; intros m; simpl.
  - apply heap_blind_ret.
  - apply heap_blind_bind; [apply heap_blind_getCache|]. intros userIDs. apply IH.
Qed.

Lemma heap_blind_callRead Paginate g r : heap_blind (callRead Paginate g r).
Proof.
  destruct r; simpl; apply heap_blind_discard.
  - apply heap_blind_batchGetCache2.
  - apply heap_blind_getCache.
  - apply heap_blind_getCache.
  - apply heap_blind_hashMapLoop.
  - apply heap_blind_getCache.
  - apply heap_blind_memberIDsLoop.
  - apply heap_blind_getCache.
  - apply heap_blind_getCache.
  - apply heap_blind_batchGetCache2.
  - apply heap_blind_bind; [apply heap_blind_getCache|]. intros ids.
    apply heap_blind_batchGetCache2.
  - unfold GetGroupMembersPage. apply heap_blind_bind.
    + apply heap_blind_attempt, heap_blind_getCache.
    + intros [groupMemberIDs|err]; [|apply heap_blind_ret].
      apply heap_blind_bind.
      * apply heap_blind_attempt, heap_blind_batchGetCache2.
      * intros [groupMembers|err]; apply heap_blind_ret.
  - apply heap_blind_getCache.
Qed.

Lemma chainDel_world g cs w :
  ∃ h, (chainDel g cs w).2 = set_heap h w.
Proof.
  revert g w. induction cs as [|c rest IH]; intros g w.
  - exists (heap w). by destruct w.
  - cbn [chainDel]. unfold bind.
    destruct (heap w !! metaCache g) as [mc|] eqn:Hg.
    + rewrite (callDel_run _ _ _ _ Hg).
      destruct (IH (derivedCache g (length (heap w)))
                  (allocated (rcClient g) (keys mc ++ delKeys c) w)) as [h Hh].
      exists h. by rewrite Hh.
    + rewrite (callDel_nil _ _ _ Hg). exists (heap w). by destruct w.
Qed.

Lemma heap_blind_GetGroupMembersPage Paginate g groupID userIDs showNumber pageNumber :
  heap_blind (GetGroupMembersPage Paginate g groupID userIDs showNumber pageNumber).
Proof.
  unfold GetGroupMembersPage. apply heap_blind_bind.
  - apply heap_blind_attempt, heap_blind_getCache.
  - intros [groupMemberIDs|err]; [|apply heap_blind_ret].
    apply heap_blind_bind.
    + apply heap_blind_attempt, heap_blind_batchGetCache2.
    + intros [groupMembers|err]; apply heap_blind_ret.
Qed.

Lemma heap_blind_GetAllGroupMembersInfo g groupID :
  heap_blind (GetAllGroupMembersInfo g groupID).
Proof.
  apply heap_blind_bind; [apply heap_blind_getCache|]. intros ids.
  apply heap_blind_batchGetCache2.
Qed.

Lemma heap_blind_sameRead {A} (c : M A) g cs w :
  heap_blind c → sameRead c (chainDel g cs w).2 w.
Proof.
  intros Hc. destruct (chainDel_world g cs w) as [h ->].
  unfold sameRead. by rewrite Hc.
Qed.

(** X18: invalidation is deferred: after any chain of [Del*] calls that has
    not been committed, every read method returns the value or error it
    would have returned before the calls, cached values included, and
    leaves the backend it would have left. *)
Theorem reads_unchanged_until_commit
    (Paginate : list string → Z → Z → list string)
    (g g' : GroupCacheRedis) (cs : list DelCall) (w : World) :
  let w' := (chainDel g cs w).2 in
  (∀ groupIDs, sameRead (GetGroupsInfo g' groupIDs) w' w)
  ∧ (∀ groupID, sameRead (GetGroupInfo g' groupID) w' w)
  ∧ (∀ groupID, sameRead (GetGroupMembersHash g' groupID) w' w)
  ∧ (∀ groupIDs, sameRead (GetGroupMemberHashMap g' groupIDs) w' w)
  ∧ (∀ groupID, sameRead (GetGroupMemberIDs g' groupID) w' w)
  ∧ (∀ groupIDs, sameRead (GetGroupsMemberIDs g' groupIDs) w' w)
  ∧ (∀ userID, sameRead (GetJoinedGroupIDs g' userID) w' w)
  ∧ (∀ groupID userID, sameRead (GetGroupMemberInfo g' groupID userID) w' w)
  ∧ (∀ groupID userIDs, sameRead (GetGroupMembersInfo g' groupID userIDs) w' w)
  ∧ (∀ groupID, sameRead (GetAllGroupMembersInfo g' groupID) w' w)
  ∧ (∀ groupID, sameRead (GetAllGroupMemberInfo g' groupID) w' w)
  ∧ (∀ groupID userIDs showNumber pageNumber,
       sameRead (GetGroupMembersPage Paginate g' groupID userIDs showNumber
                   pageNumber) w' w)
  ∧ (∀ groupID, sameRead (GetGroupMemberNum g' groupID) w' w).
Proof.
  simpl. repeat match goal with |- _ ∧ _ => split end;
    intros; apply heap_blind_sameRead.
  - apply heap_blind_batchGetCache2.
  - apply heap_blind_getCache.
  - apply heap_blind_getCache.
  - apply heap_blind_hashMapLoop.
  - apply heap_blind_getCache.
  - apply heap_blind_memberIDsLoop.
  - apply heap_blind_getCache.
  - apply heap_blind_getCache.
  - apply heap_blind_batchGetCache2.
  - apply heap_blind_GetAllGroupMembersInfo.
  - apply heap_blind_GetAllGroupMembersInfo.
  - apply heap_blind_GetGroupMembersPage.
  - apply heap_blind_getCache.
Qed.

(** The stale member list cached for "g" is still served after
    [DelGroupMemberIDs("g")]; only the commit makes the read reload. *)
Example reads_unchanged_until_commit_sample :
  let stale := set_redis {["GROUP_MEMBER_IDS:g" := {| value := VStrings ["gone"];
                                                     ttl := groupExpireTime |}]}
                 sampleWorld in
  (GetGroupMemberIDs sampleCache "g" (DelGroupMemberIDs sampleCache "g" stale).2).1
  = Ok ["gone"].
Proof. reflexivity. Qed.

(** * What every read stores, and with which time-to-live *)


























